(** * A same-domain site crawler (sitemap builder): model and properties

    Shallow embedding of [students/jbimbert/main/main.go].  Go strings are
    byte strings, modelled by [string] (one [ascii] per byte); the global map
    [mLinks] is a [gmap string Link]; the external collaborators (HTTP
    transport, the HTML parser, the anchor extractor of package [links], the
    [sort] package, the file system) are parameters that obey the contracts
    of their documentation. *)

From Stdlib Require Import Ascii NArith ZArith.
From stdpp Require Import base strings list gmap sorting pretty.

Local Open Scope Z_scope.
Local Set Warnings "-clear-no-such-hyp".

(** ** Go strings *)

Module GoString.

(** [len(s)] *)
Definition len (s : string) : nat := String.length s.

(** [strings.HasPrefix(s, p)] *)
Definition HasPrefix (s p : string) : bool := String.prefix p s.

(** [s[i]], [None] when the index is out of range (a run-time panic) *)
Definition index (s : string) (i : nat) : option ascii := String.get i s.

(** The six ASCII bytes of Go's [asciiSpace] table: tab, newline, vertical
    tab, form feed, carriage return and space. *)
Definition asciiSpace (c : ascii) : bool :=
  match N_of_ascii c with
  | 9%N | 10%N | 11%N | 12%N | 13%N | 32%N => true
  | _ => false
  end.

(** UTF-8 encodings of the remaining code points of [unicode.IsSpace]:
    U+0085 and U+00A0 take two bytes; U+1680, U+2000..U+200A, U+2028,
    U+2029, U+202F, U+205F and U+3000 take three. *)
Definition space2 (c1 c2 : ascii) : bool :=
  let b1 := N_of_ascii c1 in
  let b2 := N_of_ascii c2 in
  ((b1 =? 194) && ((b2 =? 133) || (b2 =? 160)))%N.

Definition space3 (c1 c2 c3 : ascii) : bool :=
  let b1 := N_of_ascii c1 in
  let b2 := N_of_ascii c2 in
  let b3 := N_of_ascii c3 in
  (((b1 =? 225) && (b2 =? 154) && (b3 =? 128))
   || ((b1 =? 226) && (b2 =? 128)
       && (((128 <=? b3) && (b3 <=? 138))
           || (b3 =? 168) || (b3 =? 169) || (b3 =? 175)))
   || ((b1 =? 226) && (b2 =? 129) && (b3 =? 159))
   || ((b1 =? 227) && (b2 =? 128) && (b3 =? 128)))%N.

(** [strings.TrimLeftFunc(s, unicode.IsSpace)]: drop white-space runes from
    the front.  A byte sequence that is not one of the encodings above
    decodes to a rune that is not white space. *)
Fixpoint trimLeft (s : string) : string :=
  match s with
  | EmptyString => EmptyString
  | String c1 r1 =>
      if asciiSpace c1 then trimLeft r1
      else match r1 with
           | String c2 r2 =>
               if space2 c1 c2 then trimLeft r2
               else match r2 with
                    | String c3 r3 =>
                        if space3 c1 c2 c3 then trimLeft r3 else s
                    | EmptyString => s
                    end
           | EmptyString => s
           end
  end.

(** The same scan from the other end, on the reversed byte sequence. *)
Fixpoint trimRev (l : list ascii) : list ascii :=
  match l with
  | [] => []
  | c1 :: r1 =>
      if asciiSpace c1 then trimRev r1
      else match r1 with
           | c2 :: r2 =>
               if space2 c2 c1 then trimRev r2
               else match r2 with
                    | c3 :: r3 =>
                        if space3 c3 c2 c1 then trimRev r3 else l
                    | [] => l
                    end
           | [] => l
           end
  end.

(** [strings.TrimRightFunc(s, unicode.IsSpace)] *)
Definition trimRight (s : string) : string :=
  String.string_of_list_ascii
    (rev (trimRev (rev (String.list_ascii_of_string s)))).

(** [strings.TrimSpace(s)] *)
Definition TrimSpace (s : string) : string := trimRight (trimLeft s).

End GoString.

Import GoString.

(** ** Data model *)

(** [links.Link] *)
Record Link : Type := mkLink { Href : string; Text : string }.

Global Instance Link_eq_dec : EqDecision Link.
Proof. solve_decision. Defined.

(** Go [error] values are opaque; a message stands for one. *)
Definition error : Type := string.

(** What a Go call that returns [(T, error)] hands back. *)
Inductive result (A : Type) : Type :=
| Ret (a : A)
| Fail (e : error).
Arguments Ret {A} a.
Arguments Fail {A} e.

(** [schemes = [...]string{"https://", "http://"}] *)
Definition schemes : list string := ["https://"; "http://"].

(** [schemes[0]] *)
Definition scheme0 : string := "https://".

(** ** Predicates on URLs *)

(** The [for _, p := range schemes] loop of [hasScheme]. *)
Fixpoint hasScheme_range (ps : list string) (s withOption : string) : bool :=
  match ps with
  | [] => false
  | p :: ps' =>
      if HasPrefix s (p +:+ withOption) then true
      else hasScheme_range ps' s withOption
  end.

Definition hasScheme (s withOption : string) : bool :=
  hasScheme_range schemes s withOption.

(** [len(s) > 1 && (string(s[0]) == "/" || hasScheme(s, domain+"/"))];
    [&&] guards the index, so [s[0]] is in range where it is read. *)
Definition hasDomain (s domain : string) : bool :=
  (1 <? len s)%nat
  && (match index s 0 with
      | Some c => Ascii.eqb c "/"
      | None => false
      end
      || hasScheme s (domain +:+ "/")).

(** ** Filtering and mapping slices of links *)

Fixpoint filterLinks (links : list Link) (f : Link → bool) : list Link :=
  match links with
  | [] => []
  | l :: ls => if f l then l :: filterLinks ls f else filterLinks ls f
  end.

(** The mapping function may panic ([None]); the panic ends the loop. *)
Fixpoint mapLinks (links : list Link) (f : Link → option Link)
  : option (list Link) :=
  match links with
  | [] => Some []
  | l :: ls =>
      match f l with
      | None => None
      | Some l' =>
          match mapLinks ls f with
          | None => None
          | Some ls' => Some (l' :: ls')
          end
      end
  end.

(** The predicate [parsePage] passes to [filterLinks]. *)
Definition keepLink (domain : string) (l : Link) : bool :=
  let ref := TrimSpace (Href l) in
  negb (String.eqb ref "") && hasDomain ref domain.

(** The function [parsePage] passes to [mapLinks]; [l.Href[0]] panics with
    an index out of range on an empty href. *)
Definition normalizeLink (domain : string) (l : Link) : option Link :=
  match index (Href l) 0 with
  | None => None
  | Some c =>
      if Ascii.eqb c "/"
      then Some {| Href := scheme0 +:+ domain +:+ Href l; Text := Text l |}
      else Some l
  end.

(** ** The [sort] package *)

(** [sort.Slice(x, func(i, j int) bool { return key(x[i]) < key(x[j]) })] and
    [sort.Strings] (where [key] is the identity).  Every sort of the program
    compares a string key with [<].  The package promises a permutation of the
    slice in which no element is less than its predecessor; it does not
    promise stability, so which of two elements with equal keys comes first
    is left to the implementation. *)
Definition key_le {A : Type} (key : A → string) (a b : A) : Prop :=
  String.ltb (key b) (key a) = false.

Class SliceSorter : Type := {
  sortSlice : ∀ {A : Type}, (A → string) → list A → list A;
  sortSlice_perm :
    ∀ (A : Type) (key : A → string) (x : list A), sortSlice key x ≡ₚ x;
  sortSlice_sorted :
    ∀ (A : Type) (key : A → string) (x : list A),
      Sorted (key_le key) (sortSlice key x)
}.

(** The loop of [sort.Search(n, f)]: binary search on [i, j).  Every turn
    shrinks [j - i], so [j - i] turns are enough. *)
Fixpoint Search_loop (turns : nat) (f : nat → bool) (i j : nat) : nat :=
  match turns with
  | O => i
  | S turns' =>
      if (i <? j)%nat then
        let h := ((i + j) / 2)%nat in
        if negb (f h) then Search_loop turns' f (h + 1) j
        else Search_loop turns' f i h
      else i
  end.

Definition Search (n : nat) (f : nat → bool) : nat := Search_loop n f 0 n.

(** ** Suppressing twin links *)

(** The closure given to [sort.Search] in [purgeTwins]:
    [l.Href == uniqLinks[i].Href].  [Search] probes indices below
    [len(uniqLinks)] only, so the index is always in range. *)
Definition sameHrefAt (uniqLinks : list Link) (l : Link) (i : nat) : bool :=
  match uniqLinks !! i with
  | Some u => String.eqb (Href l) (Href u)
  | None => false
  end.

(** One turn of [for _, l := range links] in [purgeTwins]. *)
Definition purgeTwins_step (uniqLinks : list Link) (l : Link) : list Link :=
  let i := Search (length uniqLinks) (sameHrefAt uniqLinks l) in
  if (length uniqLinks <=? i)%nat then uniqLinks ++ [l] else uniqLinks.

Definition purgeTwins {sorter : SliceSorter} (links : list Link) : list Link :=
  fold_left purgeTwins_step (sortSlice Href links) [].

(** ** Loading and parsing a page *)

(** The world outside the program: [http.Get], [ioutil.ReadAll], [html.Parse]
    and [links.Parse] (which appends the anchors of a document, in document
    order, to an empty slice). *)
Record World : Type := {
  Response : Type;
  Node : Type;
  http_Get : string → result Response;
  ioutil_ReadAll : Response → result string;
  html_Parse : string → result Node;
  links_Parse : Node → list Link
}.

(** How a call ends: it returns a value with a nil error, returns a non-nil
    error, or panics. *)
Inductive outcome (A : Type) : Type :=
| Done (a : A)
| Failed (e : error)
| Panicked.
Arguments Done {A} a.
Arguments Failed {A} e.
Arguments Panicked {A}.

Definition loadPage (w : World) (url : string) : result string :=
  match http_Get w url with
  | Fail err => Fail err
  | Ret resp =>
      match ioutil_ReadAll w resp with
      | Fail err => Fail err
      | Ret body => Ret body
      end
  end.

Definition parsePage {sorter : SliceSorter} (w : World) (url domain : string)
  : outcome (list Link) :=
  match loadPage w url with
  | Fail err => Failed err
  | Ret body =>
      match html_Parse w body with
      | Fail err => Failed err
      | Ret doc =>
          let links := links_Parse w doc in
          let filteredLinks := filterLinks links (keepLink domain) in
          match mapLinks filteredLinks (normalizeLink domain) with
          | None => Panicked
          | Some normalizedLinks => Done (purgeTwins normalizedLinks)
          end
      end
  end.

(** ** The traversal *)

(** Go's [int] is 64 bits wide; [depth+1] wraps around. *)
Definition int_wrap (z : Z) : Z := (z + 2 ^ 63) `mod` 2 ^ 64 - 2 ^ 63.

(** A ghost record of what the traversal did, latest first: insertions into
    [mLinks] and calls of [parsePage] with the depth of the caller. *)
Inductive event : Type :=
| EvInsert (href : string)
| EvFetch (url : string) (depth : Z).

Global Instance event_eq_dec : EqDecision event.
Proof. solve_decision. Defined.

(** The package-level variable [mLinks], with the ghost record. *)
Record globals : Type := mkGlobals {
  mLinks : gmap string Link;
  events : list event
}.

Definition globals0 : globals := {| mLinks := ∅; events := [] |}.

Definition record_insert (link : Link) (g : globals) : globals :=
  {| mLinks := <[Href link := link]> (mLinks g);
     events := EvInsert (Href link) :: events g |}.

Definition record_fetch (url : string) (depth : Z) (g : globals) : globals :=
  {| mLinks := mLinks g; events := EvFetch url depth :: events g |}.

(** The hrefs inserted and the pages fetched, read off the ghost record. *)
Fixpoint inserted (es : list event) : list string :=
  match es with
  | [] => []
  | EvInsert href :: es' => href :: inserted es'
  | EvFetch _ _ :: es' => inserted es'
  end.

Fixpoint fetched (es : list event) : list (string * Z) :=
  match es with
  | [] => []
  | EvInsert _ :: es' => fetched es'
  | EvFetch url depth :: es' => (url, depth) :: fetched es'
  end.

(** In the ghost record every fetch comes right after the insertion of the
    same href. *)
Fixpoint fetch_follows_insert (es : list event) : Prop :=
  match es with
  | [] => True
  | EvInsert _ :: es' => fetch_follows_insert es'
  | EvFetch url _ :: es' =>
      match es' with
      | EvInsert href :: _ => url = href ∧ fetch_follows_insert es'
      | _ => False
      end
  end.

(** The guard [maxDepth == -1 || depth < maxDepth]. *)
Definition follow (maxDepth depth : Z) : bool :=
  (maxDepth =? -1) || (depth <? maxDepth).

(** The body of [findAll]: the loop over [links], with [recur] standing for
    the recursive call.  [maxDepth] is the package-level variable, assigned
    once by [main] before the traversal.  The error a recursive call returns
    is not looked at (line 144); a panic unwinds through every caller. *)
Fixpoint findAll_range {sorter : SliceSorter} (w : World) (maxDepth : Z)
    (recur : list Link → Z → globals → option (globals * outcome unit))
    (links : list Link) (domain : string) (depth : Z) (g : globals)
  : option (globals * outcome unit) :=
  match links with
  | [] => Some (g, Done tt)
  | link :: rest =>
      match mLinks g !! Href link with
      | Some _ => findAll_range w maxDepth recur rest domain depth g
      | None =>
          let g1 := record_insert link g in
          if follow maxDepth depth then
            let g2 := record_fetch (Href link) depth g1 in
            match parsePage w (Href link) domain with
            | Failed err => Some (g2, Failed err)
            | Panicked => Some (g2, Panicked)
            | Done newLinks =>
                match recur newLinks (int_wrap (depth + 1)) g2 with
                | None => None
                | Some (g3, Panicked) => Some (g3, Panicked)
                | Some (g3, _) =>
                    findAll_range w maxDepth recur rest domain depth g3
                end
            end
          else findAll_range w maxDepth recur rest domain depth g1
      end
  end.

(** [findAll], with a bound on the nesting of recursive calls; [None] means
    the bound was too small. *)
Fixpoint findAll {sorter : SliceSorter} (nesting : nat) (w : World)
    (maxDepth : Z) (links : list Link) (domain : string) (depth : Z)
    (g : globals) : option (globals * outcome unit) :=
  match nesting with
  | O => None
  | S nesting' =>
      findAll_range w maxDepth
        (λ newLinks depth' g',
           findAll nesting' w maxDepth newLinks domain depth' g')
        links domain depth g
  end.

(** ** Output *)

Definition dquote : string := String (ascii_of_nat 34) "".
Definition newline : string := String (ascii_of_nat 10) "".

(** [xml.Header] *)
Definition xml_Header : string :=
  "<?xml version=" +:+ dquote +:+ "1.0" +:+ dquote
  +:+ " encoding=" +:+ dquote +:+ "UTF-8" +:+ dquote +:+ "?>" +:+ newline.

Definition urlset_open : string :=
  "<urlset xmlns=" +:+ dquote
  +:+ "http://www.sitemaps.org/schemas/sitemap/0.9" +:+ dquote +:+ ">".

(** [type url struct { Loc string }] *)
Record url : Type := mkUrl { Loc : string }.

(** The encoder and the file system: [xml.MarshalIndent(v, prefix, indent)],
    [os.Create(name)], and [f.Write(b)], which hands back the bytes that
    reached the file and possibly an error. *)
Record Output : Type := {
  xml_MarshalIndent : list url → string → string → result string;
  os_Create : string → result unit;
  file_Write : string → string → string * option error
}.

(** [for _, l := range mLinks] visits the entries of the map in an order the
    language leaves open; [range] is the order taken. *)
Definition range_order : Type := gmap string Link → list Link.

Definition range_ok (range : range_order) : Prop :=
  ∀ m : gmap string Link, range m ≡ₚ (map_to_list m).*2.

(** [writeXml]: the error returned (if any) and the file left behind (if one
    was created).  The results of the four [f.Write] calls are dropped. *)
Definition writeXml {sorter : SliceSorter} (o : Output) (range : range_order)
    (g : globals) (filename : string)
  : option error * option (string * string) :=
  let urls := (λ l, {| Loc := Href l |}) <$> range (mLinks g) in
  let urls := sortSlice Loc urls in
  match xml_MarshalIndent o urls "  " "   " with
  | Fail err => (Some err, None)
  | Ret output =>
      match os_Create o filename with
      | Fail err => (Some err, None)
      | Ret _ =>
          let b1 := (file_Write o filename xml_Header).1 in
          let b2 := (file_Write o filename urlset_open).1 in
          let b3 := (file_Write o filename output).1 in
          let b4 := (file_Write o filename "</urlset>").1 in
          (None, Some (filename, b1 +:+ b2 +:+ b3 +:+ b4))
      end
  end.

(** [writeBuf]: what is printed on standard output.  [fmt.Fprint] renders a
    slice of strings as its elements between brackets, separated by spaces. *)
Definition writeBuf {sorter : SliceSorter} (range : range_order) (g : globals)
  : string :=
  let line := "Number of links : " +:+ pretty (size (mLinks g)) +:+ newline in
  let urls := Href <$> range (mLinks g) in
  let urls := sortSlice id urls in
  line +:+ "[" +:+ String.concat " " urls +:+ "]".

(** ** The program *)

(** The command-line flags [-domain], [-outfile] and [-depth]. *)
Record Flags : Type := {
  flag_domain : string;
  flag_outfile : string;
  flag_depth : Z
}.

(** How the process ends: [main] returns (exit status 0), leaving its output
    and the registry it built, or the process panics (exit status 2). *)
Inductive ending : Type :=
| Returns (g : globals) (stdout : string) (file : option (string * string))
| Panics (err : option error).

Definition exit_status (e : ending) : Z :=
  match e with
  | Returns _ _ _ => 0
  | Panics _ => 2
  end.

(** The root link [main] builds from the flag. *)
Definition rootLink (domain : string) : Link :=
  let fulldomain :=
    if negb (hasScheme domain "") then scheme0 +:+ domain else domain in
  {| Href := fulldomain; Text := "Root link" |}.

Definition main {sorter : SliceSorter} (nesting : nat) (w : World) (o : Output)
    (range : range_order) (fl : Flags) : option ending :=
  let maxDepth := flag_depth fl in
  let links := [rootLink (flag_domain fl)] in
  match findAll nesting w maxDepth links (flag_domain fl) 0 globals0 with
  | None => None
  | Some (_, Panicked) => Some (Panics None)
  | Some (_, Failed err) => Some (Panics (Some err))
  | Some (g, Done _) =>
      if String.eqb (TrimSpace (flag_outfile fl)) ""
      then Some (Returns g (writeBuf range g) None)
      else Some (Returns g "" (writeXml o range g (flag_outfile fl)).2)
  end.

(** * Notions used to state the properties *)

(** ** Orders and the ghost record *)

(** Strictly increasing keys. *)
Definition key_lt {A : Type} (key : A → string) (a b : A) : Prop :=
  String.ltb (key a) (key b) = true.

(** The ghost record stays well formed: no href is inserted twice, what was
    inserted is in the registry, and a fetch comes right after the insertion
    of the href it fetches. *)
Definition log_ok (g : globals) : Prop :=
  NoDup (inserted (events g))
  ∧ (∀ h, h ∈ inserted (events g) → h ∈ dom (mLinks g))
  ∧ fetch_follows_insert (events g).

(** The anchors of every page that loads have no white space in front of
    their hrefs. *)
Definition hrefs_unpadded (w : World) : Prop :=
  ∀ url body doc a,
    loadPage w url = Ret body → html_Parse w body = Ret doc →
    a ∈ links_Parse w doc → trimLeft (Href a) = Href a.

(** ** The claims as the specification words them *)

(** The filter as the specification words it: the trimmed href is not empty
    and starts with a slash or with a scheme, the domain and a slash. *)
Definition passes_as_specified (domain href : string) : Prop :=
  let ref := TrimSpace href in
  ref ≠ ""
  ∧ (HasPrefix ref "/" = true
     ∨ HasPrefix ref ("http://" +:+ domain +:+ "/") = true
     ∨ HasPrefix ref ("https://" +:+ domain +:+ "/") = true).

(** The hrefs of the specification's example, as links without text. *)
Definition example_hrefs : list string :=
  ["/a"; "http://example.com/a"; "https://example.com/a";
   "http://other.com/a"; "mailto:x@y.com"; ""; "   "].

Definition bare (href : string) : Link := {| Href := href; Text := "" |}.

(** An absolute href on the domain of the flag: a scheme, the host of the
    flag (the flag without its own scheme) and a slash, then the path. *)
Definition absolute_same_domain (domain href : string) : Prop :=
  ∃ s s' host,
    s ∈ schemes ∧ s' ∈ schemes ∧ domain = s' +:+ host
    ∧ HasPrefix href (s +:+ host +:+ "/") = true.

(** The first half of the claim on scheme-bearing flags, as it is worded: no
    absolute same-domain href passes the filter. *)
Definition no_absolute_href_passes (domain : string) : Prop :=
  hasScheme domain "" = true →
  ∀ l : Link, absolute_same_domain domain (Href l) → keepLink domain l = false.

(** ** Sites, file systems and iteration orders to run the program on *)

(** Insertion sort by a string key, a sorter to run the program with. *)
Fixpoint insert_sorted {A : Type} (key : A → string) (a : A) (x : list A)
  : list A :=
  match x with
  | [] => [a]
  | b :: x' =>
      if String.ltb (key b) (key a) then b :: insert_sorted key a x'
      else a :: x
  end.

Definition insertion_sort {A : Type} (key : A → string) (x : list A)
  : list A :=
  foldr (insert_sorted key) [] x.

(** A site given as a table from URL to what fetching it yields: the anchors
    of the page, or the error of the fetch.  A URL that is not in the table
    cannot be fetched. *)
Fixpoint page_of (site : list (string * result (list Link))) (u : string)
  : result (list Link) :=
  match site with
  | [] => Fail "no such host"
  | (u', page) :: site' => if String.eqb u u' then page else page_of site' u
  end.

(** The world of a mock site; the body of a page is its URL, which the parser
    maps back to the anchors of the page. *)
Definition mock_world (site : list (string * result (list Link))) : World :=
  {| Response := string;
     Node := list Link;
     http_Get := λ u,
       match page_of site u with
       | Ret _ => Ret u
       | Fail e => Fail e
       end;
     ioutil_ReadAll := λ resp, Ret resp;
     html_Parse := λ body,
       match page_of site body with
       | Ret anchors => Ret anchors
       | Fail e => Fail e
       end;
     links_Parse := λ doc, doc |}.

(** An encoder that joins the locations, a file system on which every file
    can be created and written, and one on which no file can be created. *)
Definition mock_output (create : string → result unit) : Output :=
  {| xml_MarshalIndent := λ urls _ _, Ret (String.concat "," (Loc <$> urls));
     os_Create := create;
     file_Write := λ _ b, (b, None) |}.

Definition fs_ok : Output := mock_output (λ _, Ret tt).
Definition fs_readonly : Output := mock_output (λ _, Fail "permission denied").

(** A file system on which files can be created and every write fails
    without writing a byte. *)
Definition fs_full : Output :=
  {| xml_MarshalIndent := λ urls _ _, Ret (String.concat "," (Loc <$> urls));
     os_Create := λ _, Ret tt;
     file_Write := λ _ _, ("", Some "no space left on device") |}.

(** Two iteration orders over the map: by key, and the reverse. *)
Definition range_fwd : range_order := λ m, (map_to_list m).*2.
Definition range_bwd : range_order := λ m, reverse (map_to_list m).*2.

Definition flags (domain outfile : string) (depth : Z) : Flags :=
  {| flag_domain := domain; flag_outfile := outfile; flag_depth := depth |}.

(** A root page with one link, whose page cannot be fetched. *)
Definition site_broken_child : list (string * result (list Link)) :=
  [("https://e.com", Ret [{| Href := "/a"; Text := "A" |}]);
   ("https://e.com/a", Fail "connection refused")].

(** A root page whose only anchor has a space in front of its href. *)
Definition site_padded_href : list (string * result (list Link)) :=
  [("https://e.com", Ret [{| Href := " /a"; Text := "A" |}])].

(** A root page without links. *)
Definition site_single : list (string * result (list Link)) :=
  [("https://e.com", Ret [])].

(** Two pages that link to each other. *)
Definition url_A : string := "https://e.com/a".
Definition url_B : string := "https://e.com/b".
Definition site_cycle : list (string * result (list Link)) :=
  [(url_A, Ret [{| Href := url_B; Text := "to B" |}]);
   (url_B, Ret [{| Href := url_A; Text := "to A" |}])].

(** A root with two children, one of which has a child of its own. *)
Definition site_two_levels : list (string * result (list Link)) :=
  [("https://e.com", Ret [{| Href := "/a"; Text := "A" |};
                          {| Href := "/b"; Text := "B" |}]);
   ("https://e.com/a", Ret [{| Href := "/c"; Text := "C" |}]);
   ("https://e.com/b", Ret []);
   ("https://e.com/c", Ret [])].

(** * Properties *)

(** ** The order [<] on Go strings *)

Section string_order.

Lemma ascii_compare_refl (a : ascii) : Ascii.compare a a = Eq.
Proof. unfold Ascii.compare. apply N.compare_refl. Qed.

Lemma ascii_compare_lt_trans (a b c : ascii) :
  Ascii.compare a b = Lt → Ascii.compare b c = Lt → Ascii.compare a c = Lt.
Proof.
  unfold Ascii.compare. rewrite !N.compare_lt_iff. intros; etrans; eauto.
Qed.

Lemma string_compare_refl (s : string) : String.compare s s = Eq.
Proof.
  induction s as [|a s IH]; simpl; [done|].
  by rewrite ascii_compare_refl.
Qed.

Lemma string_compare_lt_trans (s1 s2 s3 : string) :
  String.compare s1 s2 = Lt → String.compare s2 s3 = Lt →
  String.compare s1 s3 = Lt.
Proof.
  revert s2 s3.
  induction s1 as [|a s1 IH]; intros [|b s2] [|c s3]; simpl; try done.
  destruct (Ascii.compare a b) eqn:Hab; try done;
    destruct (Ascii.compare b c) eqn:Hbc; try done; intros H12 H23.
  - apply Ascii.compare_eq_iff in Hab as ->.
    apply Ascii.compare_eq_iff in Hbc as ->.
    rewrite ascii_compare_refl. eauto.
  - apply Ascii.compare_eq_iff in Hab as ->. by rewrite Hbc.
  - apply Ascii.compare_eq_iff in Hbc as <-. by rewrite Hab.
  - by rewrite (ascii_compare_lt_trans a b c).
Qed.

Lemma ltb_irrefl (s : string) : String.ltb s s = false.
Proof. unfold String.ltb. by rewrite string_compare_refl. Qed.

Lemma ltb_trans (s1 s2 s3 : string) :
  String.ltb s1 s2 = true → String.ltb s2 s3 = true →
  String.ltb s1 s3 = true.
Proof.
  unfold String.ltb. intros H12 H23.
  rewrite (string_compare_lt_trans s1 s2 s3); [done| |].
  - by destruct (String.compare s1 s2).
  - by destruct (String.compare s2 s3).
Qed.

Lemma ltb_asym (s1 s2 : string) :
  String.ltb s1 s2 = true → String.ltb s2 s1 = false.
Proof.
  unfold String.ltb. rewrite (String.compare_antisym s2 s1).
  by destruct (String.compare s1 s2).
Qed.

(** Two strings neither of which is less than the other are equal. *)
Lemma ltb_total (s1 s2 : string) :
  String.ltb s1 s2 = false → String.ltb s2 s1 = false → s1 = s2.
Proof.
  unfold String.ltb. rewrite (String.compare_antisym s2 s1).
  destruct (String.compare s1 s2) eqn:Hc; simpl; try done.
  intros _ _. by apply String.compare_eq_iff.
Qed.

Lemma nlt_trans (s1 s2 s3 : string) :
  String.ltb s2 s1 = false → String.ltb s3 s2 = false →
  String.ltb s3 s1 = false.
Proof.
  intros H12 H23.
  destruct (String.ltb s3 s1) eqn:H31; [|done].
  destruct (String.ltb s1 s2) eqn:E12.
  - by rewrite (ltb_trans s3 s1 s2) in H23.
  - assert (s1 = s2) as -> by by apply ltb_total.
    congruence.
Qed.

Global Instance key_le_trans {A} (key : A → string) :
  Transitive (key_le key).
Proof. intros a b c. unfold key_le. apply nlt_trans. Qed.

End string_order.

(** ** A sorter that meets the contract: insertion sort *)

Section insertion_sort.
Context {A : Type} (key : A → string).

Lemma insert_sorted_perm a x : insert_sorted key a x ≡ₚ a :: x.
Proof.
  induction x as [|b x IH]; simpl; [done|].
  destruct (String.ltb (key b) (key a)); [|done].
  rewrite IH. apply Permutation_swap.
Qed.

Lemma insertion_sort_perm x : insertion_sort key x ≡ₚ x.
Proof.
  induction x as [|a x IH]; simpl; [done|].
  by rewrite insert_sorted_perm, IH.
Qed.

Lemma insert_sorted_sorted a x :
  Sorted (key_le key) x → Sorted (key_le key) (insert_sorted key a x).
Proof.
  induction 1 as [|b x Hx IH Hb]; simpl.
  { repeat constructor. }
  destruct (String.ltb (key b) (key a)) eqn:Hba.
  - constructor; [done|].
    destruct Hb as [|c x Hbc]; simpl.
    + constructor. unfold key_le. by apply ltb_asym.
    + destruct (String.ltb (key c) (key a)); constructor; [done|].
      unfold key_le. by apply ltb_asym.
  - constructor; [by constructor|]. by constructor.
Qed.

Lemma insertion_sort_sorted x :
  Sorted (key_le key) (insertion_sort key x).
Proof.
  induction x as [|a x IH]; simpl; [constructor|].
  by apply insert_sorted_sorted.
Qed.

End insertion_sort.

Definition insertion_sorter : SliceSorter :=
  {| sortSlice := @insertion_sort;
     sortSlice_perm := @insertion_sort_perm;
     sortSlice_sorted := @insertion_sort_sorted |}.

(** ** Binary search *)

Section search.
Context (f : nat → bool).

Lemma midpoint_bounds (i j : nat) :
  (i < j)%nat → (i ≤ (i + j) / 2 < j)%nat.
Proof.
  intros Hij. split.
  - apply Nat.div_le_lower_bound; lia.
  - apply Nat.Div0.div_lt_upper_bound; lia.
Qed.

(** With no index of [i, j) satisfying [f], the search ends at [j]. *)
Lemma Search_loop_none (turns i j : nat) :
  (i ≤ j)%nat → (j - i ≤ turns)%nat →
  (∀ h, (i ≤ h < j)%nat → f h = false) →
  Search_loop turns f i j = j.
Proof.
  revert i. induction turns as [|turns IH]; intros i Hij Hturns Hf; cbn [Search_loop].
  { lia. }
  destruct (Nat.ltb_spec i j) as [Hlt|Hge]; [|lia].
  pose proof (midpoint_bounds i j Hlt) as Hh.
  rewrite (Hf _ Hh). cbn [negb].
  apply IH; [lia|lia|]. intros h' Hh'. apply Hf. lia.
Qed.

(** With the last index of [i, n) the only one satisfying [f], the search
    finds it. *)
Lemma Search_loop_last (turns i n : nat) :
  (i < n)%nat → (n - i ≤ turns)%nat →
  (∀ h, (i ≤ h < n - 1)%nat → f h = false) →
  f (n - 1)%nat = true →
  Search_loop turns f i n = (n - 1)%nat.
Proof.
  revert i. induction turns as [|turns IH]; intros i Hin Hturns Hf Hlast; cbn [Search_loop].
  { lia. }
  destruct (Nat.ltb_spec i n) as [Hlt|Hge]; [|lia].
  pose proof (midpoint_bounds i n Hlt) as Hh.
  destruct (decide ((i + n) / 2 = n - 1)%nat) as [Heq|Hne].
  - rewrite Heq, Hlast. cbn [negb].
    apply Search_loop_none; [lia|lia|done].
  - rewrite Hf by lia. cbn [negb].
    apply IH; [lia|lia| |done]. intros h' Hh'. apply Hf. lia.
Qed.

End search.

(** [Search] reads [f] below [n] only. *)
Lemma Search_loop_ext (f g : nat → bool) (turns i j : nat) :
  (∀ h, (h < j)%nat → f h = g h) →
  Search_loop turns f i j = Search_loop turns g i j.
Proof.
  revert i j. induction turns as [|turns IH]; intros i j Hfg; cbn [Search_loop]; [done|].
  destruct (Nat.ltb_spec i j) as [Hlt|Hge]; [|done].
  pose proof (midpoint_bounds i j Hlt) as Hh.
  rewrite (Hfg ((i + j) / 2)%nat) by lia.
  destruct (g ((i + j) / 2)%nat); cbn [negb].
  - apply IH. intros h' Hh'. apply Hfg. lia.
  - apply IH. done.
Qed.

Lemma Search_ext (f g : nat → bool) (n : nat) :
  (∀ h, (h < n)%nat → f h = g h) → Search n f = Search n g.
Proof. apply Search_loop_ext. Qed.

(** ** Suppressing twins: the scan *)

(** What the closure of [purgeTwins] would yield out of range is never
    asked for. *)
Lemma sameHrefAt_in_range (uniqLinks : list Link) (l : Link) (oob : bool) :
  Search (length uniqLinks) (sameHrefAt uniqLinks l)
  = Search (length uniqLinks)
      (λ i, match uniqLinks !! i with
            | Some u => String.eqb (Href l) (Href u)
            | None => oob
            end).
Proof.
  apply Search_ext. intros h Hh. unfold sameHrefAt.
  by destruct (lookup_lt_is_Some_2 uniqLinks h Hh) as [u ->].
Qed.

Global Instance key_lt_trans {A} (key : A → string) : Transitive (key_lt key).
Proof. intros a b c. unfold key_lt. apply ltb_trans. Qed.

Lemma key_lt_le {A} (key : A → string) (a b : A) :
  key_lt key a b → key_le key a b.
Proof. unfold key_lt, key_le. apply ltb_asym. Qed.

Lemma key_le_lt_trans {A} (key : A → string) (a b c : A) :
  key_lt key a b → key_le key b c → key_lt key a c.
Proof.
  unfold key_lt, key_le. intros Hab Hbc.
  destruct (String.ltb (key b) (key c)) eqn:E.
  - by apply (ltb_trans _ (key b)).
  - by rewrite <-(ltb_total (key b) (key c)).
Qed.

Lemma key_le_neq_lt {A} (key : A → string) (a b : A) :
  key_le key a b → key a ≠ key b → key_lt key a b.
Proof.
  unfold key_lt, key_le. intros Hab Hne.
  destruct (String.ltb (key a) (key b)) eqn:E; [done|].
  destruct Hne. by apply ltb_total.
Qed.

Lemma key_lt_neq {A} (key : A → string) (a b : A) :
  key_lt key a b → key a ≠ key b.
Proof. unfold key_lt. intros Hab Heq. by rewrite Heq, ltb_irrefl in Hab. Qed.

(** On a strictly increasing [uniqLinks] whose hrefs are all at most that of
    [l], one turn of the scan appends [l] exactly when its href is new. *)
Lemma purgeTwins_step_spec (uniqLinks : list Link) (l : Link) :
  StronglySorted (key_lt Href) uniqLinks →
  (∀ u, u ∈ uniqLinks → key_le Href u l) →
  purgeTwins_step uniqLinks l
  = if decide (Href l ∈ Href <$> uniqLinks) then uniqLinks
    else uniqLinks ++ [l].
Proof.
  intros Hsorted Hle. unfold purgeTwins_step.
  destruct uniqLinks as [|u us _] using rev_ind.
  { rewrite decide_False; [done|]. apply not_elem_of_nil. }
  apply StronglySorted_app in Hsorted as (Hlast & _ & _).
  assert (Hbelow : ∀ h, (h < length us)%nat →
            sameHrefAt (us ++ [u]) l h = false).
  { intros h Hh. unfold sameHrefAt.
    rewrite lookup_app_l by done.
    destruct (us !! h) as [v|] eqn:Hv; [|done].
    apply String.eqb_neq. intros Heq.
    assert (v ∈ us) as Hin by (eapply list_elem_of_lookup_2; eauto).
    assert (key_lt Href v u) as Hvu by (apply Hlast; [done|apply list_elem_of_singleton; done]).
    assert (key_le Href u l) as Hul by (apply Hle; set_solver).
    unfold key_lt, key_le in *. congruence. }
  assert (Hat : sameHrefAt (us ++ [u]) l (length us) = String.eqb (Href l) (Href u)).
  { unfold sameHrefAt. by rewrite list_lookup_middle. }
  assert (Hmem : Href l ∈ Href <$> (us ++ [u]) ↔ Href l = Href u).
  { rewrite fmap_app, elem_of_app. simpl. rewrite list_elem_of_singleton.
    split; [|by right]. intros [Hin|?]; [|done].
    apply list_elem_of_fmap in Hin as (v & Heq & Hin).
    assert (key_lt Href v u) as Hvu by (apply Hlast; [done|apply list_elem_of_singleton; done]).
    assert (key_le Href u l) as Hul by (apply Hle; set_solver).
    unfold key_lt, key_le in *. congruence. }
  rewrite length_app. simpl. unfold Search.
  replace (length us + 1)%nat with (S (length us)) by lia.
  destruct (String.eqb (Href l) (Href u)) eqn:E.
  - rewrite (Search_loop_last _ _ 0 (S (length us))).
    + rewrite decide_True by (apply Hmem; by apply String.eqb_eq).
      destruct (Nat.leb_spec (S (length us)) (S (length us) - 1)); [lia|done].
    + lia.
    + lia.
    + intros h Hh. apply Hbelow. lia.
    + replace (S (length us) - 1)%nat with (length us) by lia. by rewrite Hat.
  - rewrite Search_loop_none.
    + rewrite decide_False by (rewrite Hmem; by apply String.eqb_neq).
      by rewrite Nat.leb_refl.
    + lia.
    + lia.
    + intros h Hh. destruct (decide (h = length us)) as [->|Hne].
      * by rewrite Hat.
      * apply Hbelow. lia.
Qed.

Lemma StronglySorted_weaken {A} (R1 R2 : relation A) (x : list A) :
  (∀ a b, R1 a b → R2 a b) → StronglySorted R1 x → StronglySorted R2 x.
Proof.
  intros HR. induction 1 as [|a x Hx IH Ha]; constructor; [done|].
  eapply Forall_impl; eauto.
Qed.

Lemma strictly_sorted_NoDup {A} (key : A → string) (x : list A) :
  StronglySorted (key_lt key) x → NoDup (key <$> x).
Proof.
  induction 1 as [|a x Hx IH Ha]; csimpl; constructor; [|done].
  intros (b & Heq & Hb)%list_elem_of_fmap.
  rewrite Forall_forall in Ha. by apply (key_lt_neq key a b); [apply Ha|].
Qed.

Lemma NoDup_key_inj {A} (key : A → string) (x : list A) (a b : A) :
  NoDup (key <$> x) → a ∈ x → b ∈ x → key a = key b → a = b.
Proof.
  induction x as [|c x IH]; csimpl; intros Hnd Ha Hb Hab.
  { by apply elem_of_nil in Ha. }
  apply NoDup_cons in Hnd as [Hc Hnd].
  apply elem_of_cons in Ha as [->|Ha]; apply elem_of_cons in Hb as [->|Hb];
    try done.
  - destruct Hc. rewrite Hab. by apply list_elem_of_fmap_2.
  - destruct Hc. rewrite <-Hab. by apply list_elem_of_fmap_2.
  - by apply IH.
Qed.

(** The scan over a sorted slice keeps, for every href, the first link that
    carries it. *)
Lemma purgeTwins_scan_spec (links uniqLinks : list Link) :
  StronglySorted (key_lt Href) uniqLinks →
  StronglySorted (key_le Href) links →
  (∀ u l, u ∈ uniqLinks → l ∈ links → key_le Href u l) →
  StronglySorted (key_lt Href) (fold_left purgeTwins_step links uniqLinks)
  ∧ (∀ h, h ∈ Href <$> fold_left purgeTwins_step links uniqLinks
          ↔ h ∈ Href <$> uniqLinks ∨ h ∈ Href <$> links)
  ∧ (∀ l, l ∈ fold_left purgeTwins_step links uniqLinks
          → l ∈ uniqLinks ∨ l ∈ links).
Proof.
  revert uniqLinks.
  induction links as [|x links IH]; intros uniqLinks Hu Hl Hul; simpl.
  { split; [done|]. split; [|by left].
    intros h. split; [by left|]. intros [?|Hin]; [done|].
    by apply elem_of_nil in Hin. }
  apply StronglySorted_cons in Hl as [Hx Hl]. rewrite Forall_forall in Hx.
  rewrite purgeTwins_step_spec; [|done|]; last first.
  { intros u Hin. apply Hul; [done|]. by left. }
  case_decide as Hmem.
  - destruct (IH uniqLinks) as (Hs & Hh & Hin); [done|done| |].
    { intros u l ??. apply Hul; [done|]. by right. }
    split; [done|]. split.
    + intros h. rewrite Hh. csimpl. rewrite elem_of_cons.
      split; [tauto|]. intros [?|[->|?]]; tauto.
    + intros l Hl'. destruct (Hin l Hl'); [by left|]. right. by right.
  - destruct (IH (uniqLinks ++ [x])) as (Hs & Hh & Hin); [|done| |].
    { apply StronglySorted_app. split; [|split; [done|]].
      - intros u x' Hu' ->%list_elem_of_singleton.
        apply key_le_neq_lt.
        + apply Hul; [done|]. by left.
        + intros Heq. apply Hmem. rewrite <-Heq. by apply list_elem_of_fmap_2.
      - repeat constructor. }
    { intros u l [Hu'| ->%list_elem_of_singleton]%elem_of_app Hl'.
      - apply Hul; [done|]. by right.
      - by apply Hx. }
    split; [done|]. split.
    + intros h. rewrite Hh, fmap_app, elem_of_app. csimpl.
      rewrite list_elem_of_singleton, elem_of_cons. tauto.
    + intros l Hl'. destruct (Hin l Hl') as [Hl''|?]; [|right; by right].
      apply elem_of_app in Hl'' as [?| ->%list_elem_of_singleton];
        [by left|]. right. by left.
Qed.

(** On a strictly increasing slice the scan keeps every link. *)
Lemma purgeTwins_scan_strict (links uniqLinks : list Link) :
  StronglySorted (key_lt Href) (uniqLinks ++ links) →
  fold_left purgeTwins_step links uniqLinks = uniqLinks ++ links.
Proof.
  revert uniqLinks.
  induction links as [|x links IH]; intros uniqLinks Hs; simpl.
  { by rewrite app_nil_r. }
  pose proof Hs as (Hux & Hu & _)%StronglySorted_app.
  rewrite purgeTwins_step_spec; [|done|]; last first.
  { intros u Hin. apply key_lt_le, Hux; [done|]. by left. }
  rewrite decide_False.
  - rewrite IH; rewrite <-app_assoc; done.
  - intros (u & Heq & Hin)%list_elem_of_fmap.
    apply (key_lt_neq Href u x); [|done]. apply Hux; [done|]. by left.
Qed.

Section purgeTwins.
Context {sorter : SliceSorter}.

Lemma sortSlice_strongly_sorted {A} (key : A → string) (x : list A) :
  StronglySorted (key_le key) (sortSlice key x).
Proof. apply Sorted_StronglySorted; [apply _|]. apply sortSlice_sorted. Qed.

(** Sorting a slice whose keys are strictly increasing leaves it as it is. *)
Lemma sortSlice_strict_id {A} (key : A → string) (x : list A) :
  StronglySorted (key_lt key) x → sortSlice key x = x.
Proof.
  intros Hx. apply (StronglySorted_unique_strong (key_le key)).
  - intros a b Ha Hb Hab Hba.
    rewrite sortSlice_perm in Ha.
    eapply NoDup_key_inj; eauto using strictly_sorted_NoDup.
    by apply ltb_total.
  - apply sortSlice_strongly_sorted.
  - eapply StronglySorted_weaken; [|done]. apply key_lt_le.
  - apply sortSlice_perm.
Qed.

Lemma purgeTwins_strict (links : list Link) :
  StronglySorted (key_lt Href) (purgeTwins links).
Proof.
  unfold purgeTwins.
  apply (purgeTwins_scan_spec (sortSlice Href links) []).
  - constructor.
  - apply sortSlice_strongly_sorted.
  - intros u l Hu. by apply elem_of_nil in Hu.
Qed.

(** C6: for every input sequence of links, purgeTwins returns a sequence
    that is strictly increasing by href (so sorted ascending, each href
    occurring exactly once), whose hrefs are exactly the hrefs of the input,
    and whose links are links of the input. *)
Theorem purgeTwins_sorted_unique (links : list Link) :
  StronglySorted (key_lt Href) (purgeTwins links)
  ∧ NoDup (Href <$> purgeTwins links)
  ∧ (∀ h, h ∈ Href <$> purgeTwins links ↔ h ∈ Href <$> links)
  ∧ (∀ l, l ∈ purgeTwins links → l ∈ links).
Proof.
  unfold purgeTwins.
  destruct (purgeTwins_scan_spec (sortSlice Href links) []) as (Hs & Hh & Hin).
  { constructor. }
  { apply sortSlice_strongly_sorted. }
  { intros u l Hu. by apply elem_of_nil in Hu. }
  split; [done|]. split; [by apply strictly_sorted_NoDup|]. split.
  - intros h. rewrite Hh, sortSlice_perm. split; [|by right].
    intros [Hnil|?]; [|done]. by apply elem_of_nil in Hnil.
  - intros l Hl. destruct (Hin l Hl) as [Hnil|Hl'].
    + by apply elem_of_nil in Hnil.
    + by rewrite sortSlice_perm in Hl'.
Qed.

(** C7: purgeTwins is idempotent: purging the twins of an already purged
    sequence gives that sequence back. *)
Theorem purgeTwins_idempotent (links : list Link) :
  purgeTwins (purgeTwins links) = purgeTwins links.
Proof.
  unfold purgeTwins at 1.
  rewrite sortSlice_strict_id by apply purgeTwins_strict.
  rewrite purgeTwins_scan_strict; [done|]. apply purgeTwins_strict.
Qed.

End purgeTwins.

(** ** The domain filter and the normalizer *)

Lemma first_byte_slash (s : string) :
  match index s 0 with
  | Some c => Ascii.eqb c "/"
  | None => false
  end = HasPrefix s "/".
Proof.
  destruct s as [|c s]; [done|].
  unfold index, HasPrefix. cbn [String.get String.prefix].
  destruct (ascii_dec "/" c) as [<-|Hne].
  - by destruct s.
  - apply Ascii.eqb_neq. congruence.
Qed.

Lemma hasScheme_prefixes (s withOption : string) :
  hasScheme s withOption
  = HasPrefix s ("https://" +:+ withOption)
    || HasPrefix s ("http://" +:+ withOption).
Proof.
  unfold hasScheme, schemes, hasScheme_range.
  destruct (HasPrefix s ("https://" +:+ withOption)); [done|].
  by destruct (HasPrefix s ("http://" +:+ withOption)).
Qed.

Lemma len_gt_1_nonempty (s : string) :
  (1 <? len s)%nat = true → String.eqb s "" = false.
Proof. by destruct s. Qed.

(** What the filter decides, read off the code. *)
Lemma keepLink_spec (domain : string) (l : Link) :
  keepLink domain l = true ↔
    (1 < len (TrimSpace (Href l)))%nat
    ∧ (HasPrefix (TrimSpace (Href l)) "/" = true
       ∨ HasPrefix (TrimSpace (Href l)) ("http://" +:+ domain +:+ "/") = true
       ∨ HasPrefix (TrimSpace (Href l)) ("https://" +:+ domain +:+ "/") = true).
Proof.
  unfold keepLink, hasDomain.
  rewrite first_byte_slash, hasScheme_prefixes.
  rewrite andb_true_iff, negb_true_iff, andb_true_iff, !orb_true_iff.
  rewrite Nat.ltb_lt. split.
  - intros (_ & Hlen & Hor). tauto.
  - intros (Hlen & Hor). split; [|tauto].
    apply len_gt_1_nonempty. by apply Nat.ltb_lt.
Qed.

(** C2, as stated, fails: the href "/" is not empty after trimming and
    starts with a slash, yet the filter drops it, because hasDomain asks for
    more than one byte. *)
Lemma keepLink_single_slash_dropped :
  ¬ (keepLink "example.com" (bare "/") = true
     ↔ passes_as_specified "example.com" "/").
Proof.
  intros [_ Hkeep].
  assert (keepLink "example.com" (bare "/") = true) as Habs; [|done].
  apply Hkeep. split; [done|]. by left.
Qed.

(** C2, amended: the filter keeps a link if and only if, after trimming
    white space from its href, the href is longer than one byte and starts
    with a slash or with http://domain/ or https://domain/.  With domain
    example.com, of the seven example hrefs exactly the first three pass, and
    "/a" is normalized to "https://example.com/a". *)
Theorem keepLink_iff :
  (∀ (domain : string) (l : Link),
     keepLink domain l = true ↔
       let ref := TrimSpace (Href l) in
       (1 < len ref)%nat
       ∧ (HasPrefix ref "/" = true
          ∨ HasPrefix ref ("http://" +:+ domain +:+ "/") = true
          ∨ HasPrefix ref ("https://" +:+ domain +:+ "/") = true))
  ∧ filterLinks (bare <$> example_hrefs) (keepLink "example.com")
    = bare <$> ["/a"; "http://example.com/a"; "https://example.com/a"]
  ∧ (∀ text : string,
       normalizeLink "example.com" {| Href := "/a"; Text := text |}
       = Some {| Href := "https://example.com/a"; Text := text |}).
Proof.
  split; [|split].
  - intros domain l. apply keepLink_spec.
  - reflexivity.
  - reflexivity.
Qed.

(** A link that passes the filter has a non-empty href, so the normalizer
    never reads [l.Href[0]] out of range and [parsePage] never panics. *)
Lemma keepLink_nonempty (domain : string) (l : Link) :
  keepLink domain l = true → Href l ≠ "".
Proof.
  unfold keepLink. intros Hkeep Hempty. by rewrite Hempty in Hkeep.
Qed.

Lemma normalize_after_filter (domain : string) (links : list Link) :
  is_Some (mapLinks (filterLinks links (keepLink domain))
             (normalizeLink domain)).
Proof.
  induction links as [|l links [ls IH]]; simpl; [by eexists|].
  destruct (keepLink domain l) eqn:Hkeep; [|by eexists].
  apply keepLink_nonempty in Hkeep. simpl.
  unfold normalizeLink at 1, index.
  destruct (Href l) as [|c r]; [done|]. simpl.
  destruct (Ascii.eqb c "/"); rewrite IH; by eexists.
Qed.

Lemma parsePage_never_panics {sorter : SliceSorter} (w : World)
    (url domain : string) :
  parsePage w url domain ≠ Panicked.
Proof.
  unfold parsePage.
  destruct (loadPage w url) as [body|err]; [|done].
  destruct (html_Parse w body) as [doc|err]; [|done].
  by destruct (normalize_after_filter domain (links_Parse w doc)) as [ls ->].
Qed.

(** ** The traversal: invariants *)

Section traversal.
Context {sorter : SliceSorter} (w : World) (maxDepth : Z) (domain : string).

(** A property of the globals that survives the two things the loop does to
    them (insert a fresh link without following it; insert a fresh link and
    fetch its page) survives the whole traversal. *)
Lemma findAll_range_invariant (P : globals → Prop)
    (recur : list Link → Z → globals → option (globals * outcome unit))
    (depth : Z) :
  (∀ link g, P g → mLinks g !! Href link = None →
     follow maxDepth depth = false → P (record_insert link g)) →
  (∀ link g, P g → mLinks g !! Href link = None →
     follow maxDepth depth = true →
     P (record_fetch (Href link) depth (record_insert link g))) →
  (∀ links d g g' r, recur links d g = Some (g', r) → P g → P g') →
  ∀ links g g' r,
    findAll_range w maxDepth recur links domain depth g = Some (g', r) →
    P g → P g'.
Proof.
  intros Hins Hfetch Hrec.
  induction links as [|link rest IH]; intros g g' r Hrun HP; simpl in Hrun.
  { by simplify_eq. }
  destruct (mLinks g !! Href link) as [?|] eqn:Hfound; [by eapply IH|].
  pose proof (Hins link g HP Hfound) as HP1.
  pose proof (Hfetch link g HP Hfound) as HP2.
  destruct (follow maxDepth depth); [|by eapply IH; eauto].
  specialize (HP2 eq_refl).
  destruct (parsePage w (Href link) domain) as [newLinks|err|];
    [|by simplify_eq..].
  destruct (recur newLinks _ _) as [[g3 r3]|] eqn:Hcall; [|done].
  apply Hrec in Hcall; [|done].
  destruct r3; [by eapply IH|by eapply IH|by simplify_eq].
Qed.

Lemma findAll_invariant (P : globals → Prop) :
  (∀ link d g, P g → mLinks g !! Href link = None →
     follow maxDepth d = false → P (record_insert link g)) →
  (∀ link d g, P g → mLinks g !! Href link = None →
     follow maxDepth d = true →
     P (record_fetch (Href link) d (record_insert link g))) →
  ∀ nesting links depth g g' r,
    findAll nesting w maxDepth links domain depth g = Some (g', r) →
    P g → P g'.
Proof.
  intros Hins Hfetch.
  induction nesting as [|nesting IH]; intros links depth g g' r; [done|].
  simpl. apply findAll_range_invariant; eauto.
Qed.

(** The registry only grows. *)
Lemma findAll_dom_mono nesting links depth g g' r :
  findAll nesting w maxDepth links domain depth g = Some (g', r) →
  dom (mLinks g) ⊆ dom (mLinks g').
Proof.
  intros Hrun.
  apply (findAll_invariant (λ g', dom (mLinks g) ⊆ dom (mLinks g')))
    in Hrun; [done| | |done].
  - intros link d g1 Hg1 _ _. simpl. rewrite dom_insert_L. set_solver.
  - intros link d g1 Hg1 _ _. simpl. rewrite dom_insert_L. set_solver.
Qed.

(** Pages are fetched only where the guard allows it. *)
Lemma findAll_fetch_guarded nesting links depth g g' r :
  findAll nesting w maxDepth links domain depth g = Some (g', r) →
  (∀ u d, (u, d) ∈ fetched (events g) → maxDepth = -1 ∨ d < maxDepth) →
  ∀ u d, (u, d) ∈ fetched (events g') → maxDepth = -1 ∨ d < maxDepth.
Proof.
  apply (findAll_invariant
           (λ g, ∀ u d, (u, d) ∈ fetched (events g) →
                        maxDepth = -1 ∨ d < maxDepth)).
  - intros link d g1 Hg1 _ _. done.
  - intros link d g1 Hg1 _ Hfollow u d'. simpl.
    intros [Heq|Hin]%elem_of_cons; [|by eapply Hg1].
    simplify_eq. unfold follow in Hfollow.
    apply orb_true_iff in Hfollow as [?%Z.eqb_eq|?%Z.ltb_lt]; auto.
Qed.

Lemma findAll_log_ok nesting links depth g g' r :
  findAll nesting w maxDepth links domain depth g = Some (g', r) →
  log_ok g → log_ok g'.
Proof.
  apply (findAll_invariant log_ok).
  - intros link d g1 (Hnd & Hdom & Hff) Hfresh _.
    split; [|split]; simpl.
    + constructor; [|done]. intros Hin%Hdom.
      apply elem_of_dom in Hin as [? ?]. congruence.
    + intros h [->|Hin]%elem_of_cons; rewrite dom_insert_L; set_solver.
    + done.
  - intros link d g1 (Hnd & Hdom & Hff) Hfresh _.
    split; [|split]; simpl.
    + constructor; [|done]. intros Hin%Hdom.
      apply elem_of_dom in Hin as [? ?]. congruence.
    + intros h [->|Hin]%elem_of_cons; rewrite dom_insert_L; set_solver.
    + done.
Qed.

(** ** The traversal: termination *)

Section finite_graph.
Context (U : gset string).
Context (Hclosed : ∀ url links l,
            parsePage w url domain = Done links → l ∈ links → Href l ∈ U).

Lemma insert_shrinks (link : Link) (g : globals) :
  Href link ∈ U → mLinks g !! Href link = None →
  (size (U ∖ dom (mLinks (record_insert link g)))
   < size (U ∖ dom (mLinks g)))%nat.
Proof.
  intros HU Hfresh. apply subset_size. simpl. rewrite dom_insert_L.
  apply not_elem_of_dom in Hfresh. set_solver.
Qed.

Lemma findAll_range_total
    (recur : list Link → Z → globals → option (globals * outcome unit))
    (depth : Z) (n : nat) :
  (∀ links d g,
     (∀ l, l ∈ links → Href l ∈ U) →
     (size (U ∖ dom (mLinks g)) < n)%nat →
     ∃ g' r, recur links d g = Some (g', r)
             ∧ dom (mLinks g) ⊆ dom (mLinks g')) →
  ∀ links g,
    (∀ l, l ∈ links → Href l ∈ U) →
    (size (U ∖ dom (mLinks g)) < S n)%nat →
    ∃ g' r, findAll_range w maxDepth recur links domain depth g = Some (g', r)
            ∧ dom (mLinks g) ⊆ dom (mLinks g').
Proof.
  intros Hrec.
  induction links as [|link rest IH]; intros g HU Hsize; simpl.
  { by eexists _, _. }
  assert (∀ l, l ∈ rest → Href l ∈ U) as HUrest.
  { intros l Hl. apply HU. by right. }
  destruct (mLinks g !! Href link) as [?|] eqn:Hfound; [by apply IH|].
  pose proof (insert_shrinks link g (HU link ltac:(by left)) Hfound) as Hlt.
  assert (dom (mLinks g) ⊆ dom (mLinks (record_insert link g))) as Hsub.
  { simpl. rewrite dom_insert_L. set_solver. }
  destruct (follow maxDepth depth).
  - destruct (parsePage w (Href link) domain) as [newLinks|err|] eqn:Hpage.
    + destruct (Hrec newLinks (int_wrap (depth + 1))
                  (record_fetch (Href link) depth (record_insert link g)))
        as (g3 & r3 & -> & Hsub3).
      { intros l Hl. by eapply Hclosed. }
      { simpl in *. lia. }
      assert (dom (mLinks g) ⊆ dom (mLinks g3)) as Hsub'.
      { etrans; [exact Hsub|exact Hsub3]. }
      assert (∃ g' r,
                findAll_range w maxDepth recur rest domain depth g3
                = Some (g', r) ∧ dom (mLinks g3) ⊆ dom (mLinks g'))
        as (g' & r & Hrun & Hsub4).
      { apply IH; [done|].
        assert (size (U ∖ dom (mLinks g3)) ≤ size (U ∖ dom (mLinks g)))%nat.
        { apply subseteq_size. set_solver. }
        lia. }
      destruct r3; [| |by eexists _, _].
      * eexists _, _. split; [exact Hrun|]. by etrans.
      * eexists _, _. split; [exact Hrun|]. by etrans.
    + by eexists _, _.
    + by eexists _, _.
  - destruct (IH (record_insert link g)) as (g' & r & Hrun & Hsub');
      [done|lia|].
    eexists _, _. split; [exact Hrun|]. by etrans.
Qed.

Lemma findAll_total (n : nat) :
  ∀ links depth g,
    (∀ l, l ∈ links → Href l ∈ U) →
    (size (U ∖ dom (mLinks g)) < n)%nat →
    ∃ g' r, findAll n w maxDepth links domain depth g = Some (g', r)
            ∧ dom (mLinks g) ⊆ dom (mLinks g').
Proof.
  induction n as [|n IH]; intros links depth g HU Hsize; [lia|].
  simpl. apply (findAll_range_total _ depth n); [|done|done].
  intros links' d g1 HU' Hsize'. by apply IH.
Qed.

End finite_graph.

End traversal.

(** ** The traversal: the depth bound *)

Section depth.
Context {sorter : SliceSorter} (w : World) (maxDepth : Z) (domain : string).

(** One turn of the loop on a link that is already in the registry. *)
Lemma findAll_range_seen recur link rest depth g v :
  mLinks g !! Href link = Some v →
  findAll_range w maxDepth recur (link :: rest) domain depth g
  = findAll_range w maxDepth recur rest domain depth g.
Proof. intros Hseen. simpl. by rewrite Hseen. Qed.

(** One turn of the loop on a fresh link whose page is fetched and parsed,
    when the recursive call returns (with or without an error). *)
Lemma findAll_range_followed recur link rest depth g newLinks g3 r3 :
  mLinks g !! Href link = None →
  follow maxDepth depth = true →
  parsePage w (Href link) domain = Done newLinks →
  recur newLinks (int_wrap (depth + 1))
    (record_fetch (Href link) depth (record_insert link g)) = Some (g3, r3) →
  r3 ≠ Panicked →
  findAll_range w maxDepth recur (link :: rest) domain depth g
  = findAll_range w maxDepth recur rest domain depth g3.
Proof.
  intros Hfresh Hfollow Hpage Hcall Hr3. simpl.
  rewrite Hfresh, Hfollow, Hpage, Hcall. by destruct r3.
Qed.

(** Where the guard is false the loop inserts the new links and fetches
    nothing. *)
Lemma findAll_range_not_followed recur depth :
  follow maxDepth depth = false →
  ∀ links g,
    ∃ g', findAll_range w maxDepth recur links domain depth g
          = Some (g', Done tt)
          ∧ dom (mLinks g') = dom (mLinks g) ∪ list_to_set (Href <$> links)
          ∧ fetched (events g') = fetched (events g).
Proof.
  intros Hfollow.
  induction links as [|link rest IH]; intros g; simpl.
  { eexists. split; [done|]. split; [set_solver|done]. }
  destruct (mLinks g !! Href link) as [v|] eqn:Hfound.
  - destruct (IH g) as (g' & -> & Hdom & Hfetched).
    eexists. split; [done|]. split; [|done].
    rewrite Hdom. apply (elem_of_dom_2 (D:=gset string)) in Hfound.
    set_solver.
  - rewrite Hfollow.
    destruct (IH (record_insert link g)) as (g' & -> & Hdom & Hfetched).
    eexists. split; [done|]. split; [|done].
    rewrite Hdom. simpl. rewrite dom_insert_L. set_solver.
Qed.

End depth.

Section depth_bound.
Context {sorter : SliceSorter}.

(** C4: with maxDepth = 0 the run ends with the root link alone in the
    registry and no page fetched; with maxDepth = 1 (and a root page that
    loads) the registry holds the root and the links of the root page, and
    the root page, at depth 0, is the only page fetched; in every run a page
    is fetched only at a depth d with maxDepth = -1 or d < maxDepth. *)
Theorem depth_bound (w : World) (o : Output) (range : range_order)
    (domain outfile : string) (n : nat) :
  let root := rootLink domain in
  (∃ out file,
     main (S n) w o range (flags domain outfile 0)
     = Some (Returns (record_insert root globals0) out file))
  ∧ (∀ children,
       parsePage w (Href root) domain = Done children →
       ∃ g out file,
         main (S (S n)) w o range (flags domain outfile 1)
         = Some (Returns g out file)
         ∧ dom (mLinks g) = {[Href root]} ∪ list_to_set (Href <$> children)
         ∧ fetched (events g) = [(Href root, 0)])
  ∧ (∀ maxDepth g out file,
       main n w o range (flags domain outfile maxDepth)
       = Some (Returns g out file) →
       ∀ u d, (u, d) ∈ fetched (events g) → maxDepth = -1 ∨ d < maxDepth).
Proof.
  cbv zeta. split; [|split].
  - unfold main. cbn [flag_depth flag_domain flag_outfile flags].
    cbn [findAll findAll_range].
    change (mLinks globals0 !! Href (rootLink domain)) with
      ((∅ : gmap string Link) !! Href (rootLink domain)).
    rewrite lookup_empty. cbn [follow Z.eqb Z.ltb Z.compare orb].
    destruct (String.eqb _ _); by eexists _, _.
  - intros children Hpage.
    unfold main. cbn [flag_depth flag_domain flag_outfile flags].
    destruct (findAll_range_not_followed w 1 domain
                (λ newLinks depth' g',
                   findAll n w 1 newLinks domain depth' g') 1 eq_refl
                children
                (record_fetch (Href (rootLink domain)) 0
                   (record_insert (rootLink domain) globals0)))
      as (g & Hrun & Hdom & Hfetched).
    assert (findAll (S (S n)) w 1 [rootLink domain] domain 0 globals0
            = Some (g, Done tt)) as ->.
    { cbn [findAll].
      by erewrite findAll_range_followed. }
    exists g.
    destruct (String.eqb _ _); eexists _, _; (split; [done|]); split;
      try done.
    + rewrite Hdom. simpl. rewrite dom_insert_L. set_solver.
    + rewrite Hdom. simpl. rewrite dom_insert_L. set_solver.
  - intros maxDepth g out file Hmain u d.
    unfold main in Hmain.
    cbn [flag_depth flag_domain flag_outfile flags] in Hmain.
    destruct (findAll n w maxDepth _ domain 0 globals0)
      as [[g' r]|] eqn:Hrun; [|done].
    assert (g' = g) as ->.
    { destruct r; [|done..]. by destruct (String.eqb _ _); simplify_eq. }
    eapply findAll_fetch_guarded; [exact Hrun|].
    intros u' d' Hin. by apply elem_of_nil in Hin.
Qed.

End depth_bound.

Lemma depth_bound_witness :
  ∃ g out file,
    main (sorter:=insertion_sorter) 2 (mock_world site_two_levels) fs_ok
      range_fwd (flags "e.com" "" 1)
    = Some (Returns g out file)
    ∧ dom (mLinks g)
      = {[ "https://e.com" ]}
        ∪ list_to_set ["https://e.com/a"; "https://e.com/b"]
    ∧ fetched (events g) = [("https://e.com", 0)]
    ∧ (∀ u d, (u, d) ∈ fetched (events g) → 1 = -1 ∨ d < 1).
Proof.
  destruct (depth_bound (sorter:=insertion_sorter) (mock_world site_two_levels)
              fs_ok range_fwd "e.com" "" 0) as (_ & Hone & _).
  destruct (Hone [{| Href := "https://e.com/a"; Text := "A" |};
                  {| Href := "https://e.com/b"; Text := "B" |}] eq_refl)
    as (g & out & file & Hmain & Hdom & Hfetched).
  exists g, out, file.
  split; [exact Hmain|]. split; [exact Hdom|]. split; [exact Hfetched|].
  destruct (depth_bound (sorter:=insertion_sorter) (mock_world site_two_levels)
              fs_ok range_fwd "e.com" "" 2) as (_ & _ & Hguard).
  exact (Hguard 1 g out file Hmain).
Defined.

(** ** The traversal: cycles *)

Section cycles.
Context {sorter : SliceSorter}.

Lemma purgeTwins_singleton (l : Link) : purgeTwins [l] = [l].
Proof.
  unfold purgeTwins.
  pose proof (sortSlice_perm Link Href [l]) as Hperm.
  apply Permutation_singleton_r in Hperm. by rewrite Hperm.
Qed.

(** What [parsePage] yields on a mock site. *)
Lemma parsePage_mock site url domain :
  parsePage (mock_world site) url domain
  = match page_of site url with
    | Fail e => Failed e
    | Ret anchors =>
        match mapLinks (filterLinks anchors (keepLink domain))
                (normalizeLink domain) with
        | None => Panicked
        | Some normalizedLinks => Done (purgeTwins normalizedLinks)
        end
    end.
Proof.
  unfold parsePage, loadPage, mock_world.
  cbn [http_Get ioutil_ReadAll html_Parse links_Parse].
  destruct (page_of site url) as [anchors|e] eqn:Hpage; [|done].
  by rewrite Hpage.
Qed.

Lemma cycle_page_A :
  parsePage (mock_world site_cycle) url_A "e.com"
  = Done [{| Href := url_B; Text := "to B" |}].
Proof. rewrite parsePage_mock. by rewrite <-purgeTwins_singleton. Qed.

Lemma cycle_page_B :
  parsePage (mock_world site_cycle) url_B "e.com"
  = Done [{| Href := url_A; Text := "to A" |}].
Proof. rewrite parsePage_mock. by rewrite <-purgeTwins_singleton. Qed.

(** C5: on a finite link graph (every page links into a finite set U of
    URLs) the traversal of links of U returns, whatever the depth bound, with
    at most as many nested calls as U has URLs outside the registry, plus
    one; it keeps the record well formed: no URL is inserted twice and a page
    is fetched only right after its URL was inserted.  On the two pages A and
    B that link to each other, the unbounded traversal from A returns with
    exactly A and B in the registry. *)
Theorem findAll_terminates :
  (∀ (w : World) (maxDepth : Z) (domain : string) (U : gset string),
     (∀ url links l,
        parsePage w url domain = Done links → l ∈ links → Href l ∈ U) →
     ∀ links depth g,
       (∀ l, l ∈ links → Href l ∈ U) →
       ∃ g' r,
         findAll (S (size (U ∖ dom (mLinks g)))) w maxDepth links domain
           depth g = Some (g', r)
         ∧ (log_ok g → log_ok g'))
  ∧ (∃ g,
       findAll 3 (mock_world site_cycle) (-1) [bare url_A] "e.com" 0 globals0
       = Some (g, Done tt)
       ∧ dom (mLinks g) = {[url_A; url_B]}
       ∧ inserted (events g) = [url_B; url_A]).
Proof.
  split.
  - intros w maxDepth domain U Hclosed links depth g HU.
    destruct (findAll_total w maxDepth domain U Hclosed
                (S (size (U ∖ dom (mLinks g)))) links depth g)
      as (g' & r & Hrun & _); [done|lia|].
    exists g', r. split; [done|]. by eapply findAll_log_ok.
  - set (w := mock_world site_cycle).
    set (lA := {| Href := url_A; Text := "to A" |}).
    set (lB := {| Href := url_B; Text := "to B" |}).
    set (gA := record_fetch url_A 0 (record_insert (bare url_A) globals0)).
    set (gB := record_fetch url_B 1 (record_insert lB gA)).
    assert (findAll 1 w (-1) [lA] "e.com" 2 gB = Some (gB, Done tt)) as H1.
    { cbn [findAll]. by erewrite findAll_range_seen. }
    assert (findAll 2 w (-1) [lB] "e.com" 1 gA = Some (gB, Done tt)) as H2.
    { change (findAll 2 w (-1) [lB] "e.com" 1 gA) with
        (findAll_range w (-1)
           (λ newLinks depth' g', findAll 1 w (-1) newLinks "e.com" depth' g')
           [lB] "e.com" 1 gA).
      by rewrite (findAll_range_followed w (-1) "e.com" _ lB [] 1 gA
                    [lA] gB (Done tt) eq_refl eq_refl cycle_page_B H1). }
    exists gB. split; [|split].
    + change (findAll 3 w (-1) [bare url_A] "e.com" 0 globals0) with
        (findAll_range w (-1)
           (λ newLinks depth' g', findAll 2 w (-1) newLinks "e.com" depth' g')
           [bare url_A] "e.com" 0 globals0).
      by rewrite (findAll_range_followed w (-1) "e.com" _ (bare url_A) [] 0
                    globals0 [lB] gB (Done tt) eq_refl eq_refl
                    cycle_page_A H2).
    + simpl. rewrite !dom_insert_L. set_solver.
    + done.
Qed.

End cycles.

Lemma site_cycle_closed :
  ∀ url links l,
    parsePage (sorter:=insertion_sorter) (mock_world site_cycle) url "e.com"
    = Done links →
    l ∈ links → Href l ∈ ({[url_A; url_B]} : gset string).
Proof.
  intros url links l. rewrite parsePage_mock. unfold site_cycle, page_of.
  destruct (String.eqb url url_A).
  { intros [= <-] ->%list_elem_of_singleton. set_solver. }
  destruct (String.eqb url url_B); [|done].
  intros [= <-] ->%list_elem_of_singleton. set_solver.
Defined.

Lemma log_ok_globals0 : log_ok globals0.
Proof.
  split; [constructor|]. split; [|done].
  intros h Hin. by apply elem_of_nil in Hin.
Defined.

Lemma findAll_terminates_witness :
  ∃ g' r,
    findAll (sorter:=insertion_sorter) 3 (mock_world site_cycle) (-1)
      [bare url_A] "e.com" 0 globals0 = Some (g', r)
    ∧ log_ok g'.
Proof.
  destruct (findAll_terminates (sorter:=insertion_sorter)) as [Hgen _].
  destruct (Hgen (mock_world site_cycle) (-1) "e.com" {[url_A; url_B]}
              site_cycle_closed [bare url_A] 0 globals0)
    as (g' & r & Hrun & Hlog).
  - intros l ->%list_elem_of_singleton. set_solver.
  - exists g', r. split; [exact Hrun|]. apply Hlog, log_ok_globals0.
Defined.

(** ** Errors *)

(** An error on the root page does reach [main], which panics with it. *)
Lemma root_error_reaches_main {sorter : SliceSorter} (n : nat) (w : World)
    (o : Output) (range : range_order) (fl : Flags) (e : error) :
  follow (flag_depth fl) 0 = true →
  parsePage w (Href (rootLink (flag_domain fl))) (flag_domain fl)
  = Failed e →
  main (S n) w o range fl = Some (Panics (Some e)).
Proof.
  intros Hfollow Hpage. unfold main. cbn [findAll findAll_range].
  change (mLinks globals0 !! Href (rootLink (flag_domain fl))) with
    ((∅ : gmap string Link) !! Href (rootLink (flag_domain fl))).
  by rewrite lookup_empty, Hfollow, Hpage.
Qed.

(** C1 (the code does otherwise): the root page links to /a and the fetch of
    https://e.com/a fails.  The error is returned by the nested findAll and
    dropped by its caller: the run ends normally, with exit status 0, both
    URLs in the registry and the listing printed. *)
Theorem nested_fetch_error_is_dropped :
  parsePage (sorter:=insertion_sorter) (mock_world site_broken_child)
    "https://e.com/a" "e.com" = Failed "connection refused"
  ∧ ∃ g,
      main (sorter:=insertion_sorter) 2 (mock_world site_broken_child) fs_ok
        range_fwd (flags "e.com" "" (-1))
      = Some (Returns g
                ("Number of links : 2" +:+ newline
                 +:+ "[https://e.com https://e.com/a]") None)
      ∧ fetched (events g) = [("https://e.com/a", 1); ("https://e.com", 0)]
      ∧ exit_status
          (Returns g
             ("Number of links : 2" +:+ newline
              +:+ "[https://e.com https://e.com/a]") None) = 0.
Proof.
  split; [reflexivity|].
  eexists. split; [vm_compute; reflexivity|]. split; reflexivity.
Qed.

(** C3 (the code does otherwise): the root page carries an anchor whose href
    is " /a", with a space in front.  The filter trims the href and keeps the
    link, the normalizer looks at the untrimmed first byte and leaves the
    link alone, and the registry ends up holding the href " /a", which starts
    with no scheme. *)
Theorem padded_href_enters_registry :
  keepLink "e.com" {| Href := " /a"; Text := "A" |} = true
  ∧ normalizeLink "e.com" {| Href := " /a"; Text := "A" |}
    = Some {| Href := " /a"; Text := "A" |}
  ∧ ∃ g out,
      main (sorter:=insertion_sorter) 2 (mock_world site_padded_href) fs_ok
        range_fwd (flags "e.com" "" (-1))
      = Some (Returns g out None)
      ∧ mLinks g !! " /a" = Some {| Href := " /a"; Text := "A" |}
      ∧ hasScheme " /a" "" = false.
Proof.
  split; [reflexivity|]. split; [reflexivity|].
  eexists _, _. split; [vm_compute; reflexivity|]. split; reflexivity.
Qed.

(** C8 (the code does otherwise): when the output file cannot be created,
    writeXml returns the error, main drops it, and the run ends normally with
    exit status 0 and no file written; when the file is created and every
    write fails, writeXml itself drops the errors and the run ends normally
    with exit status 0 and an empty file. *)
Theorem create_failure_is_dropped :
  (∃ g,
     main (sorter:=insertion_sorter) 2 (mock_world site_single) fs_readonly
       range_fwd (flags "e.com" "/srv/sitemap.xml" (-1))
     = Some (Returns g "" None)
     ∧ (writeXml (sorter:=insertion_sorter) fs_readonly range_fwd g
          "/srv/sitemap.xml").1 = Some "permission denied"
     ∧ exit_status (Returns g "" None) = 0)
  ∧ (∃ g,
       main (sorter:=insertion_sorter) 2 (mock_world site_single) fs_full
         range_fwd (flags "e.com" "/srv/sitemap.xml" (-1))
       = Some (Returns g "" (Some ("/srv/sitemap.xml", "")))
       ∧ (writeXml (sorter:=insertion_sorter) fs_full range_fwd g
            "/srv/sitemap.xml").1 = None
       ∧ exit_status (Returns g "" (Some ("/srv/sitemap.xml", ""))) = 0).
Proof.
  split.
  - eexists. split; [vm_compute; reflexivity|]. split; reflexivity.
  - eexists. split; [vm_compute; reflexivity|]. split; reflexivity.
Qed.

(** ** Determinism of the output *)

Section determinism.
Context {sorter : SliceSorter}.

(** Sorting by a key that tells the elements apart forgets the order of the
    input. *)
Lemma sortSlice_perm_inj {A} (key : A → string) (x y : list A) :
  (∀ a b, key a = key b → a = b) →
  x ≡ₚ y → sortSlice key x = sortSlice key y.
Proof.
  intros Hinj Hxy. apply (StronglySorted_unique_strong (key_le key)).
  - intros a b _ _ Hab Hba. by apply Hinj, ltb_total.
  - apply sortSlice_strongly_sorted.
  - apply sortSlice_strongly_sorted.
  - by rewrite !sortSlice_perm.
Qed.

Lemma range_ok_perm (range1 range2 : range_order) (m : gmap string Link) :
  range_ok range1 → range_ok range2 → range1 m ≡ₚ range2 m.
Proof. intros H1 H2. by rewrite (H1 m), (H2 m). Qed.

Lemma writeBuf_range (range1 range2 : range_order) (g : globals) :
  range_ok range1 → range_ok range2 → writeBuf range1 g = writeBuf range2 g.
Proof.
  intros H1 H2. unfold writeBuf.
  rewrite (sortSlice_perm_inj id (Href <$> range1 (mLinks g))
             (Href <$> range2 (mLinks g))); [done|done|].
  by rewrite (range_ok_perm range1 range2).
Qed.

Lemma writeXml_range (o : Output) (range1 range2 : range_order)
    (g : globals) (filename : string) :
  range_ok range1 → range_ok range2 →
  writeXml o range1 g filename = writeXml o range2 g filename.
Proof.
  intros H1 H2. unfold writeXml.
  rewrite (sortSlice_perm_inj Loc
             ((λ l, {| Loc := Href l |}) <$> range1 (mLinks g))
             ((λ l, {| Loc := Href l |}) <$> range2 (mLinks g))); [done| |].
  - intros [a] [b]. simpl. by intros ->.
  - by rewrite (range_ok_perm range1 range2).
Qed.

(** C9: with the flags and the responses of the outside world fixed, two runs
    that differ in the order in which the map is iterated end the same way:
    the same registry, the same listing on standard output, the same file. *)
Theorem output_deterministic (w : World) (o : Output) (fl : Flags)
    (nesting : nat) (range1 range2 : range_order) :
  range_ok range1 → range_ok range2 →
  main nesting w o range1 fl = main nesting w o range2 fl.
Proof.
  intros H1 H2. unfold main.
  destruct (findAll nesting w (flag_depth fl) _ (flag_domain fl) 0 globals0)
    as [[g [[]|err|]]|]; try done.
  destruct (String.eqb _ _).
  - by rewrite (writeBuf_range range1 range2).
  - by rewrite (writeXml_range o range1 range2).
Qed.

End determinism.

Lemma range_fwd_ok : range_ok range_fwd.
Proof. intros m. reflexivity. Defined.

Lemma range_bwd_ok : range_ok range_bwd.
Proof. intros m. apply reverse_Permutation. Defined.

Lemma output_deterministic_witness :
  main (sorter:=insertion_sorter) 5 (mock_world site_two_levels) fs_ok
    range_fwd (flags "e.com" "sitemap.xml" (-1))
  = main (sorter:=insertion_sorter) 5 (mock_world site_two_levels) fs_ok
      range_bwd (flags "e.com" "sitemap.xml" (-1)).
Proof.
  apply (output_deterministic (sorter:=insertion_sorter)
           (mock_world site_two_levels) fs_ok
           (flags "e.com" "sitemap.xml" (-1)) 5 range_fwd range_bwd).
  - exact range_fwd_ok.
  - exact range_bwd_ok.
Defined.

(** ** A domain flag that carries a scheme *)

Lemma append_cons (a : ascii) (s t : string) :
  String a s +:+ t = String a (s +:+ t).
Proof. reflexivity. Qed.

Lemma append_nil (t : string) : "" +:+ t = t.
Proof. reflexivity. Qed.

Ltac string_append :=
  repeat (rewrite append_cons in * || rewrite append_nil in * ).

Lemma HasPrefix_true_iff (s p : string) :
  HasPrefix s p = true ↔ ∃ t, s = p +:+ t.
Proof.
  unfold HasPrefix. revert s.
  induction p as [|a p IH]; intros s.
  { split; [by exists s|]. by destruct s. }
  destruct s as [|b s]; cbn [String.prefix].
  { split; [done|]. by intros [t ?]. }
  destruct (ascii_dec a b) as [->|Hne].
  - rewrite IH. split; intros [t Ht]; exists t;
      rewrite append_cons in *; congruence.
  - split; [done|]. intros [t Ht]. rewrite append_cons in Ht. congruence.
Qed.

Lemma string_of_list_ascii_app (l1 l2 : list ascii) :
  String.string_of_list_ascii (l1 ++ l2)
  = String.string_of_list_ascii l1 +:+ String.string_of_list_ascii l2.
Proof. induction l1 as [|c l1 IH]; simpl; [done|]. by rewrite IH. Qed.

(** Trimming on the right leaves a prefix. *)
Lemma trimRev_suffix (n : nat) (l : list ascii) :
  (length l ≤ n)%nat → ∃ k, l = k ++ trimRev l.
Proof.
  revert l. induction n as [|n IH]; intros l Hlen.
  { destruct l; [by exists []|simpl in Hlen; lia]. }
  destruct l as [|c1 r1]; [by exists []|].
  simpl in Hlen. cbn [trimRev].
  destruct (asciiSpace c1).
  { destruct (IH r1) as [k Hk]; [lia|]. exists (c1 :: k). simpl. congruence. }
  destruct r1 as [|c2 r2]; [by exists []|]. simpl in Hlen.
  destruct (space2 c2 c1).
  { destruct (IH r2) as [k Hk]; [lia|].
    exists (c1 :: c2 :: k). simpl. congruence. }
  destruct r2 as [|c3 r3]; [by exists []|]. simpl in Hlen.
  destruct (space3 c3 c2 c1); [|by exists []].
  destruct (IH r3) as [k Hk]; [lia|].
  exists (c1 :: c2 :: c3 :: k). simpl. congruence.
Qed.

Lemma trimRight_prefix (s : string) : ∃ t, s = trimRight s +:+ t.
Proof.
  unfold trimRight.
  destruct (trimRev_suffix _ (rev (String.list_ascii_of_string s))
              (le_n _)) as [k Hk].
  exists (String.string_of_list_ascii (rev k)).
  rewrite <-string_of_list_ascii_app, <-rev_app_distr, <-Hk, rev_involutive.
  by rewrite String.string_of_list_ascii_of_string.
Qed.

(** A string that starts with the letter h has no white space in front. *)
Lemma trimLeft_h (r : string) : trimLeft (String "h" r) = String "h" r.
Proof. by destruct r as [|c2 [|c3 r3]]. Qed.

Lemma TrimSpace_h_prefix (r : string) :
  ∃ t, String "h" r = TrimSpace (String "h" r) +:+ t.
Proof. unfold TrimSpace. rewrite trimLeft_h. apply trimRight_prefix. Qed.

Lemma scheme_cases (s : string) :
  s ∈ schemes → s = "https://" ∨ s = "http://".
Proof. unfold schemes. set_solver. Qed.

(** A string cannot start both with a scheme, the host and a slash and with
    two schemes, the host and a slash, unless the host itself starts like a
    scheme. *)
Lemma scheme_prefix_conflict (s sc s' host t1 t2 : string) :
  s ∈ schemes → sc ∈ schemes → s' ∈ schemes →
  (∀ t, host ≠ "http:" +:+ t) → (∀ t, host ≠ "https:" +:+ t) →
  s +:+ host +:+ "/" +:+ t1 = sc +:+ s' +:+ host +:+ "/" +:+ t2 → False.
Proof.
  intros [->| ->]%scheme_cases [->| ->]%scheme_cases [->| ->]%scheme_cases
    Hhttp Hhttps Heq;
    string_append; simplify_eq;
    do 6 (try (destruct host as [|? host]; string_append; simplify_eq;
               try (by eapply Hhttp); try (by eapply Hhttps))).
Qed.

Lemma append_assoc (s1 s2 s3 : string) :
  (s1 +:+ s2) +:+ s3 = s1 +:+ s2 +:+ s3.
Proof. induction s1 as [|a s1 IH]; [done|]. by rewrite !append_cons, IH. Qed.

Lemma not_prefix (host p : string) :
  HasPrefix host p = false → ∀ t, host ≠ p +:+ t.
Proof.
  intros Hno t ->.
  assert (HasPrefix (p +:+ t) p = true) as Hyes; [|congruence].
  apply HasPrefix_true_iff. by exists t.
Qed.

Lemma scheme_unique (s1 s2 host1 host2 : string) :
  s1 ∈ schemes → s2 ∈ schemes →
  s1 +:+ host1 = s2 +:+ host2 → host1 = host2.
Proof.
  intros [->| ->]%scheme_cases [->| ->]%scheme_cases Heq;
    string_append; by simplify_eq.
Qed.

Lemma hasScheme_scheme (s' host : string) :
  s' ∈ schemes → hasScheme (s' +:+ host) "" = true.
Proof.
  intros Hs'. rewrite hasScheme_prefixes. apply orb_true_iff.
  apply scheme_cases in Hs' as [->| ->]; [left|right];
    apply HasPrefix_true_iff; by exists host.
Qed.

(** C10, as stated, fails on a flag whose host part starts like a scheme:
    with the flag "https://https:", the href "https://https://https:/x" is a
    scheme, the host "https:" and a slash, and it passes the filter. *)
Lemma scheme_like_host_passes : ¬ no_absolute_href_passes "https://https:".
Proof.
  intros Hclaim.
  assert (keepLink "https://https:" (bare "https://https://https:/x") = false)
    as Habs; [|done].
  apply Hclaim; [done|].
  exists "https://", "https://", "https:".
  split; [set_solver|]. split; [set_solver|]. by split.
Qed.

(** C10, amended: when the domain flag is a scheme followed by a host that
    does not itself begin with "http:" or "https:", the root URL is the flag
    as given, no absolute same-domain href (scheme, host, slash, path) passes
    the filter, and every root-relative href is normalized to "https://"
    followed by the flag, scheme included, and the href. *)
Theorem scheme_bearing_domain (s' host : string) :
  s' ∈ schemes →
  HasPrefix host "http:" = false →
  HasPrefix host "https:" = false →
  Href (rootLink (s' +:+ host)) = s' +:+ host
  ∧ (∀ l : Link,
       absolute_same_domain (s' +:+ host) (Href l) →
       keepLink (s' +:+ host) l = false)
  ∧ (∀ l : Link,
       HasPrefix (Href l) "/" = true →
       normalizeLink (s' +:+ host) l
       = Some {| Href := "https://" +:+ (s' +:+ host) +:+ Href l;
                 Text := Text l |}).
Proof.
  intros Hs' Hhttp Hhttps.
  pose proof (not_prefix _ _ Hhttp) as Hhttp'.
  pose proof (not_prefix _ _ Hhttps) as Hhttps'.
  split; [|split].
  - unfold rootLink. by rewrite hasScheme_scheme.
  - intros [href text] (s & s2 & host2 & Hs & Hs2 & Hdom & Hpre). simpl in *.
    apply scheme_unique in Hdom as <-; [|done..].
    apply HasPrefix_true_iff in Hpre as [t1 ->].
    destruct (keepLink _ _) eqn:Hkeep; [exfalso|done].
    apply keepLink_spec in Hkeep as (_ & Hor). simpl in Hor.
    assert (∃ r, (s +:+ host +:+ "/") +:+ t1 = String "h" r) as [r Hr].
    { apply scheme_cases in Hs as [->| ->]; string_append; by eexists. }
    destruct (TrimSpace_h_prefix r) as [t Ht]. rewrite <-Hr in Ht.
    destruct Hor as [Hslash|[Hsc|Hsc]];
      apply HasPrefix_true_iff in Hslash || apply HasPrefix_true_iff in Hsc.
    + destruct Hslash as [t' Ht']. rewrite Ht' in Ht.
      rewrite Hr in Ht. string_append. discriminate Ht.
    + destruct Hsc as [t' Ht']. rewrite Ht' in Ht.
      rewrite !append_assoc in Ht.
      eapply (scheme_prefix_conflict s "http://" s' host); try done.
      set_solver.
    + destruct Hsc as [t' Ht']. rewrite Ht' in Ht.
      rewrite !append_assoc in Ht.
      eapply (scheme_prefix_conflict s "https://" s' host); try done.
      set_solver.
  - intros [href text] Hpre. simpl in Hpre.
    apply HasPrefix_true_iff in Hpre as [t ->].
    unfold normalizeLink, index. simpl. by string_append.
Qed.

Lemma scheme_bearing_domain_witness :
  Href (rootLink "https://e.com") = "https://e.com"
  ∧ keepLink "https://e.com" (bare "https://e.com/a") = false
  ∧ keepLink "https://e.com" (bare "http://e.com/a") = false
  ∧ normalizeLink "https://e.com" (bare "/a")
    = Some (bare "https://https://e.com/a").
Proof.
  destruct (scheme_bearing_domain "https://" "e.com") as (Hroot & Habs & Hrel).
  - unfold schemes. apply list_elem_of_here.
  - reflexivity.
  - reflexivity.
  - split; [exact Hroot|]. split; [|split].
    + apply Habs. exists "https://", "https://", "e.com".
      split; [apply list_elem_of_here|].
      split; [apply list_elem_of_here|]. split; reflexivity.
    + apply Habs. exists "http://", "https://", "e.com".
      split; [apply list_elem_of_further, list_elem_of_here|].
      split; [apply list_elem_of_here|]. split; reflexivity.
    + apply (Hrel (bare "/a")). reflexivity.
Defined.

(** * Further properties of the code *)

(** ** Loading and parsing: how a page load ends *)

Section page_outcome.
Context {sorter : SliceSorter}.

(** X1: loadPage fails exactly when http.Get fails or reading the body fails,
    with that error; parsePage never panics (the normalizer reads the first
    byte of hrefs that passed the filter only, and these are not empty); it
    returns an error exactly when loadPage or html.Parse returns it, and
    links exactly when both succeed, the links being the purged, normalized,
    filtered anchors of the document. *)
Theorem parsePage_outcome (w : World) (url domain : string) :
  (∀ e, loadPage w url = Fail e ↔
          http_Get w url = Fail e
          ∨ ∃ resp, http_Get w url = Ret resp ∧ ioutil_ReadAll w resp = Fail e)
  ∧ parsePage w url domain ≠ Panicked
  ∧ (∀ e, parsePage w url domain = Failed e ↔
            loadPage w url = Fail e
            ∨ ∃ body, loadPage w url = Ret body ∧ html_Parse w body = Fail e)
  ∧ (∀ links, parsePage w url domain = Done links ↔
       ∃ body doc normalizedLinks,
         loadPage w url = Ret body ∧ html_Parse w body = Ret doc
         ∧ mapLinks (filterLinks (links_Parse w doc) (keepLink domain))
             (normalizeLink domain) = Some normalizedLinks
         ∧ links = purgeTwins normalizedLinks).
Proof.
  split; [|split; [apply parsePage_never_panics|split]].
  - intros e. unfold loadPage.
    destruct (http_Get w url) as [resp|e1].
    + destruct (ioutil_ReadAll w resp) as [body|e2] eqn:Hread.
      * split; [done|]. intros [?|(resp' & ? & ?)]; [done|]. congruence.
      * split.
        -- intros [= <-]. right. by exists resp.
        -- intros [?|(resp' & ? & ?)]; [done|]. congruence.
    + split; [intros [= ->]; by left|].
      intros [?|(resp' & ? & ?)]; congruence.
  - intros e. unfold parsePage.
    destruct (loadPage w url) as [body|e1].
    + destruct (html_Parse w body) as [doc|e2] eqn:Hparse.
      * destruct (normalize_after_filter domain (links_Parse w doc))
          as [ls ->].
        split; [done|]. intros [?|(body' & ? & ?)]; [done|]. congruence.
      * split.
        -- intros [= <-]. right. by exists body.
        -- intros [?|(body' & ? & ?)]; [done|]. congruence.
    + split; [intros [= <-]; by left|].
      intros [?|(body' & ? & ?)]; congruence.
  - intros links. unfold parsePage.
    destruct (loadPage w url) as [body|e1].
    + destruct (html_Parse w body) as [doc|e2] eqn:Hparse.
      * destruct (normalize_after_filter domain (links_Parse w doc))
          as [ls Hls]. rewrite Hls.
        split.
        -- intros [= <-]. by exists body, doc, ls.
        -- intros (body' & doc' & ls' & ? & ? & ? & ->). congruence.
      * split; [done|]. intros (body' & doc' & ls' & ? & ? & _). congruence.
    + split; [done|]. intros (body' & doc' & ls' & ? & _). congruence.
Qed.

End page_outcome.

(** ** The slice helpers *)

(** X2: filterLinks keeps, in their order, exactly the links that satisfy the
    predicate: the result is a sublist of the input, a link is in it if and
    only if it is in the input and satisfies the predicate, and filtering the
    result again changes nothing. *)
Theorem filterLinks_sublist (links : list Link) (f : Link → bool) :
  filterLinks links f `sublist_of` links
  ∧ (∀ l, l ∈ filterLinks links f ↔ l ∈ links ∧ f l = true)
  ∧ filterLinks (filterLinks links f) f = filterLinks links f.
Proof.
  induction links as [|l links (IHsub & IHin & IHidem)]; simpl.
  { split; [done|]. split; [|done]. intros l. rewrite elem_of_nil. tauto. }
  destruct (f l) eqn:Hf.
  - split; [by apply sublist_skip|]. split.
    + intros l'. rewrite !elem_of_cons, IHin. split; [|tauto].
      intros [->|?]; tauto.
    + simpl. by rewrite Hf, IHidem.
  - split; [by apply sublist_cons|]. split; [|done].
    intros l'. rewrite elem_of_cons, IHin. split; [tauto|].
    intros [[->|?] ?]; [congruence|tauto].
Qed.

(** X3: mapLinks panics exactly when the mapping function panics on some link
    of the input; otherwise the result has one link per input link, in the
    same order, each the image of the link at its place. *)
Theorem mapLinks_outcome (links : list Link) (f : Link → option Link) :
  (mapLinks links f = None ↔ ∃ l, l ∈ links ∧ f l = None)
  ∧ (∀ out, mapLinks links f = Some out ↔
            Forall2 (λ l l', f l = Some l') links out).
Proof.
  induction links as [|l links [IHnone IHsome]]; simpl.
  { split.
    - split; [done|]. intros (l & Hl & _). by apply elem_of_nil in Hl.
    - intros out. split; [intros [= <-]; constructor|]. by inv 1. }
  destruct (f l) as [l'|] eqn:Hf.
  - destruct (mapLinks links f) as [ls'|] eqn:Hmap.
    + split.
      * split; [done|]. intros (l0 & [->|Hl0]%elem_of_cons & Hnone);
          [congruence|].
        assert (Some ls' = None) as Habs by (apply IHnone; eauto).
        done.
      * intros out. split.
        -- intros [= <-]. constructor; [done|]. by apply IHsome.
        -- inv 1 as [|???? Hhd Htl]. apply IHsome in Htl. congruence.
    + split.
      * split; [|done]. intros _.
        destruct IHnone as [(l0 & Hl0 & Hnone) _]; [done|].
        exists l0. split; [by right|done].
      * intros out. split; [done|].
        inv 1 as [|???? Hhd Htl]. by apply IHsome in Htl.
  - split.
    + split; [|done]. intros _. exists l. split; [by left|done].
    + intros out. split; [done|]. by inv 1.
Qed.

(** ** The normalizer and the root link *)

(** X4: the normalizer keeps the anchor text, and what it returns is already
    normal: normalizing it again gives it back. *)
Theorem normalizeLink_idempotent (domain : string) (l l' : Link) :
  normalizeLink domain l = Some l' →
  Text l' = Text l ∧ normalizeLink domain l' = Some l'.
Proof.
  destruct l as [href text]. unfold normalizeLink, index. simpl.
  destruct href as [|c r]; [done|]. simpl.
  destruct (Ascii.eqb c "/") eqn:Hc; intros [= <-]; simpl.
  - split; [done|]. unfold scheme0. by string_append.
  - split; [done|]. by rewrite Hc.
Qed.

Lemma normalizeLink_idempotent_witness :
  Text {| Href := "https://e.com/a"; Text := "A" |} = "A"
  ∧ normalizeLink "e.com" {| Href := "https://e.com/a"; Text := "A" |}
    = Some {| Href := "https://e.com/a"; Text := "A" |}.
Proof.
  apply (normalizeLink_idempotent "e.com" {| Href := "/a"; Text := "A" |}).
  reflexivity.
Defined.

(** X5: whatever the domain flag, the root link main builds carries a scheme,
    and building the root link from its own href gives the same href: a flag
    with a scheme is taken as it is, a flag without one gets "https://" in
    front, once. *)
Theorem rootLink_has_scheme (domain : string) :
  hasScheme (Href (rootLink domain)) "" = true
  ∧ Href (rootLink (Href (rootLink domain))) = Href (rootLink domain)
  ∧ (hasScheme domain "" = false →
     Href (rootLink domain) = "https://" +:+ domain).
Proof.
  assert (hasScheme (Href (rootLink domain)) "" = true) as Hscheme.
  { unfold rootLink. destruct (hasScheme domain "") eqn:Hd; simpl; [done|].
    apply (hasScheme_scheme "https://" domain), list_elem_of_here. }
  split; [done|]. split.
  - unfold rootLink at 1. by rewrite Hscheme.
  - intros Hd. unfold rootLink. by rewrite Hd.
Qed.

Lemma rootLink_has_scheme_witness :
  hasScheme (Href (rootLink "e.com")) "" = true
  ∧ Href (rootLink (Href (rootLink "e.com"))) = Href (rootLink "e.com")
  ∧ Href (rootLink "e.com") = "https://e.com".
Proof.
  destruct (rootLink_has_scheme "e.com") as (H1 & H2 & H3).
  split; [exact H1|]. split; [exact H2|]. apply H3. reflexivity.
Defined.

(** ** Suppressing twins: what is kept *)

Section purge_more.
Context {sorter : SliceSorter}.

Lemma sorted_NoDup_strict {A} (key : A → string) (x : list A) :
  StronglySorted (key_le key) x → NoDup (key <$> x) →
  StronglySorted (key_lt key) x.
Proof.
  induction 1 as [|a x Hx IH Ha]; csimpl; intros Hnd; constructor.
  - apply IH. by apply NoDup_cons in Hnd as [_ ?].
  - apply NoDup_cons in Hnd as [Hnotin _].
    rewrite Forall_forall in *. intros b Hb.
    apply key_le_neq_lt; [by apply Ha|].
    intros Heq. apply Hnotin. rewrite Heq. by apply list_elem_of_fmap_2.
Qed.

(** X6: purgeTwins never returns more links than it was given, and when the
    hrefs of the input are already pairwise different it drops nothing: the
    result is the input, sorted. *)
Theorem purgeTwins_keeps_distinct (links : list Link) :
  (length (purgeTwins links) ≤ length links)%nat
  ∧ (NoDup (Href <$> links) →
     purgeTwins links = sortSlice Href links ∧ purgeTwins links ≡ₚ links).
Proof.
  split.
  - destruct (purgeTwins_scan_spec (sortSlice Href links) [])
      as (Hs & Hh & _).
    { constructor. }
    { apply sortSlice_strongly_sorted. }
    { intros u l Hu. by apply elem_of_nil in Hu. }
    fold (purgeTwins links) in Hs, Hh.
    rewrite <-(length_fmap Href (purgeTwins links)).
    rewrite <-(length_fmap Href links).
    apply submseteq_length, NoDup_submseteq.
    + by apply strictly_sorted_NoDup.
    + intros h Hin. apply Hh in Hin as [Hnil|Hin].
      * by apply elem_of_nil in Hnil.
      * by rewrite sortSlice_perm in Hin.
  - intros Hnd.
    assert (purgeTwins links = sortSlice Href links) as Heq.
    { unfold purgeTwins. rewrite purgeTwins_scan_strict; [done|]. simpl.
      apply sorted_NoDup_strict; [apply sortSlice_strongly_sorted|].
      by rewrite sortSlice_perm. }
    split; [done|]. rewrite Heq. apply sortSlice_perm.
Qed.

End purge_more.

Lemma purgeTwins_keeps_distinct_witness :
  purgeTwins (sorter:=insertion_sorter) [bare "b"; bare "a"]
  = sortSlice (SliceSorter:=insertion_sorter) Href [bare "b"; bare "a"]
  ∧ purgeTwins (sorter:=insertion_sorter) [bare "b"; bare "a"]
    ≡ₚ [bare "b"; bare "a"].
Proof.
  destruct (purgeTwins_keeps_distinct (sorter:=insertion_sorter)
              [bare "b"; bare "a"]) as [_ Hkeep].
  apply Hkeep. change (NoDup ["b"; "a"]).
  apply NoDup_cons. split; [|apply NoDup_singleton].
  intros Hin%list_elem_of_singleton. discriminate Hin.
Defined.

(** ** The traversal: what the registry holds *)

Section registry.
Context {sorter : SliceSorter} (w : World) (maxDepth : Z) (domain : string).

(** No call of findAll ends in a run-time panic. *)
Lemma findAll_never_panics nesting links depth g g' r :
  findAll nesting w maxDepth links domain depth g = Some (g', r) →
  r ≠ Panicked.
Proof.
  revert links depth g g' r.
  induction nesting as [|nesting IH]; intros links depth; [done|].
  cbn [findAll].
  induction links as [|link rest IHl]; intros g g' r Hrun; simpl in Hrun.
  { by simplify_eq. }
  destruct (mLinks g !! Href link); [by eapply IHl|].
  destruct (follow maxDepth depth); [|by eapply IHl].
  pose proof (parsePage_never_panics w (Href link) domain) as Hnp.
  destruct (parsePage w (Href link) domain) as [newLinks|err|];
    [|by simplify_eq|done].
  destruct (findAll nesting w maxDepth newLinks domain _ _)
    as [[g3 r3]|] eqn:Hcall; [|done].
  apply IH in Hcall. destruct r3; [by eapply IHl|by eapply IHl|done].
Qed.

(** An entry of the registry is never overwritten or removed. *)
Lemma findAll_lookup_preserved nesting links depth g g' r k v :
  findAll nesting w maxDepth links domain depth g = Some (g', r) →
  mLinks g !! k = Some v → mLinks g' !! k = Some v.
Proof.
  apply (findAll_invariant w maxDepth domain
           (λ g, mLinks g !! k = Some v)).
  - intros link d g1 Hk Hfresh _. simpl.
    rewrite lookup_insert_ne; [done|]. congruence.
  - intros link d g1 Hk Hfresh _. simpl.
    rewrite lookup_insert_ne; [done|]. congruence.
Qed.

(** X7: the registry only grows during a traversal: every entry it had is
    still there with the same link (the first link seen for an href is the
    one kept), and if every entry was stored under the href of its link,
    this is still so afterwards. *)
Theorem registry_grows nesting links depth g g' r :
  findAll nesting w maxDepth links domain depth g = Some (g', r) →
  mLinks g ⊆ mLinks g'
  ∧ ((∀ k v, mLinks g !! k = Some v → Href v = k) →
     ∀ k v, mLinks g' !! k = Some v → Href v = k).
Proof.
  intros Hrun. split.
  - apply map_subseteq_spec. intros k v.
    by apply (findAll_lookup_preserved nesting links depth g g' r).
  - revert Hrun.
    apply (findAll_invariant w maxDepth domain
             (λ g, ∀ k v, mLinks g !! k = Some v → Href v = k)).
    + intros link d g1 Hkeyed _ _ k v. simpl.
      rewrite lookup_insert. case_decide; [|by apply Hkeyed].
      by intros [= <-].
    + intros link d g1 Hkeyed _ _ k v. simpl.
      rewrite lookup_insert. case_decide; [|by apply Hkeyed].
      by intros [= <-].
Qed.

(** X8: a traversal of links that are all in the registry already changes
    nothing and fetches nothing, at any depth and for any depth bound: this is
    the guard that breaks cycles. *)
Theorem findAll_all_seen nesting links depth g :
  (∀ l, l ∈ links → Href l ∈ dom (mLinks g)) →
  findAll (S nesting) w maxDepth links domain depth g = Some (g, Done tt).
Proof.
  cbn [findAll].
  induction links as [|link rest IH]; intros Hseen; simpl; [done|].
  destruct (mLinks g !! Href link) as [v|] eqn:Hfound.
  - apply IH. intros l Hl. apply Hseen. by right.
  - apply not_elem_of_dom in Hfound. destruct Hfound. apply Hseen. by left.
Qed.

(** X9: when findAll returns without an error, the href of every link it
    was given is in the registry. *)
Theorem findAll_registers_links nesting links depth g g' :
  findAll nesting w maxDepth links domain depth g = Some (g', Done tt) →
  ∀ l, l ∈ links → Href l ∈ dom (mLinks g').
Proof.
  destruct nesting as [|nesting]; [done|].
  revert g.
  induction links as [|link rest IH]; intros g Hrun l Hl.
  { by apply elem_of_nil in Hl. }
  assert (∀ g1,
            findAll (S nesting) w maxDepth rest domain depth g1
            = Some (g', Done tt) →
            Href link ∈ dom (mLinks g1) → Href l ∈ dom (mLinks g'))
    as Hrest.
  { intros g1 Hrun1 Hin. apply elem_of_cons in Hl as [->|Hl].
    - by apply (findAll_dom_mono _ _ _ _ _ _ _ _ _ Hrun1).
    - by apply (IH g1). }
  cbn [findAll] in Hrun. simpl in Hrun.
  destruct (mLinks g !! Href link) as [v|] eqn:Hfound.
  { apply (Hrest g); [done|]. by apply (elem_of_dom_2 (mLinks g) _ v). }
  assert (Href link ∈ dom (mLinks (record_insert link g))) as Hin.
  { simpl. rewrite dom_insert_L. set_solver. }
  destruct (follow maxDepth depth); [|by apply (Hrest (record_insert link g))].
  destruct (parsePage w (Href link) domain) as [newLinks|err|];
    [|done|done].
  destruct (findAll nesting w maxDepth newLinks domain _ _)
    as [[g3 r3]|] eqn:Hcall; [|done].
  assert (Href link ∈ dom (mLinks g3)) as Hin3.
  { by apply (findAll_dom_mono _ _ _ _ _ _ _ _ _ Hcall). }
  destruct r3; [by apply (Hrest g3)|by apply (Hrest g3)|done].
Qed.

End registry.

Lemma registry_grows_witness :
  ∃ g r,
    findAll (sorter:=insertion_sorter) 5 (mock_world site_two_levels) (-1)
      [rootLink "e.com"] "e.com" 0 globals0 = Some (g, r)
    ∧ mLinks globals0 ⊆ mLinks g
    ∧ (∀ k v, mLinks g !! k = Some v → Href v = k).
Proof.
  eexists _, _. split; [vm_compute; reflexivity|].
  destruct (registry_grows (sorter:=insertion_sorter)
              (mock_world site_two_levels) (-1) "e.com" 5
              [rootLink "e.com"] 0 globals0 _ _ ltac:(vm_compute; reflexivity))
    as [Hsub Hkeyed].
  split; [exact Hsub|]. apply Hkeyed.
  intros k v Hk. simpl in Hk. by rewrite lookup_empty in Hk.
Defined.

Lemma findAll_all_seen_witness :
  findAll (sorter:=insertion_sorter) 1 (mock_world site_cycle) (-1)
    [bare url_A] "e.com" 0 (record_insert (bare url_A) globals0)
  = Some (record_insert (bare url_A) globals0, Done tt).
Proof.
  apply (findAll_all_seen (sorter:=insertion_sorter)).
  intros l ->%list_elem_of_singleton. simpl. rewrite dom_insert_L. set_solver.
Defined.

Lemma findAll_registers_links_witness :
  ∃ g,
    findAll (sorter:=insertion_sorter) 5 (mock_world site_two_levels) (-1)
      [rootLink "e.com"] "e.com" 0 globals0 = Some (g, Done tt)
    ∧ ∀ l, l ∈ [rootLink "e.com"] → Href l ∈ dom (mLinks g).
Proof.
  eexists. split; [vm_compute; reflexivity|].
  apply (findAll_registers_links (sorter:=insertion_sorter)
           (mock_world site_two_levels) (-1) "e.com" 5
           [rootLink "e.com"] 0 globals0).
  vm_compute. reflexivity.
Defined.

(** ** The traversal: what is fetched *)

Lemma fetched_inserted (es : list event) :
  fetch_follows_insert es →
  ∀ u, u ∈ (fetched es).*1 → u ∈ inserted es.
Proof.
  induction es as [|[h|u0 d] es IH]; simpl; intros Hff u Hu.
  - by apply elem_of_nil in Hu.
  - right. by apply IH.
  - destruct es as [|[h|??] es']; [done| |done].
    destruct Hff as [-> Hff]. simpl in *.
    apply elem_of_cons in Hu as [->|Hu]; [by left|]. by apply IH.
Qed.

Lemma fetched_NoDup (es : list event) :
  fetch_follows_insert es → NoDup (inserted es) → NoDup (fetched es).*1.
Proof.
  induction es as [|[h|u0 d] es IH]; simpl; intros Hff Hnd.
  - constructor.
  - apply IH; [done|]. by apply NoDup_cons in Hnd as [_ ?].
  - destruct es as [|[h|??] es']; [done| |done].
    destruct Hff as [-> Hff]. simpl in *.
    constructor; [|by apply IH].
    apply NoDup_cons in Hnd as [Hnotin _].
    intros Hin. apply Hnotin. by apply fetched_inserted.
Qed.

(** X10: in a traversal no page is fetched twice, and every page fetched is
    the page of an href of the registry, whatever the links and however they
    repeat across pages. *)
Theorem no_page_fetched_twice {sorter : SliceSorter} (w : World)
    (maxDepth : Z) (domain : string) nesting links depth g g' r :
  findAll nesting w maxDepth links domain depth g = Some (g', r) →
  log_ok g →
  NoDup (fetched (events g')).*1
  ∧ (∀ u, u ∈ (fetched (events g')).*1 → u ∈ dom (mLinks g')).
Proof.
  intros Hrun Hlog.
  destruct (findAll_log_ok w maxDepth domain _ _ _ _ _ _ Hrun Hlog)
    as (Hnd & Hdom & Hff).
  split; [by apply fetched_NoDup|].
  intros u Hu. by apply Hdom, fetched_inserted.
Qed.

Lemma no_page_fetched_twice_witness :
  ∃ g r,
    findAll (sorter:=insertion_sorter) 5 (mock_world site_two_levels) (-1)
      [rootLink "e.com"] "e.com" 0 globals0 = Some (g, r)
    ∧ NoDup (fetched (events g)).*1
    ∧ (∀ u, u ∈ (fetched (events g)).*1 → u ∈ dom (mLinks g)).
Proof.
  eexists _, _. split; [vm_compute; reflexivity|].
  eapply (no_page_fetched_twice (sorter:=insertion_sorter)
            (mock_world site_two_levels) (-1) "e.com" 5
            [rootLink "e.com"] 0 globals0).
  - vm_compute. reflexivity.
  - exact log_ok_globals0.
Defined.

(** ** The program: how it ends *)

Section program_end.
Context {sorter : SliceSorter}.

(** X11: main panics exactly when the root page is followed and parsePage
    returns an error for it, and it panics with that error; an error on any
    other page never ends the run, and the run never ends in a run-time
    panic. *)
Theorem main_panics_iff_root_fails (n : nat) (w : World) (o : Output)
    (range : range_order) (fl : Flags) (e : option error) :
  main (S n) w o range fl = Some (Panics e) ↔
    follow (flag_depth fl) 0 = true
    ∧ ∃ err, e = Some err
             ∧ parsePage w (Href (rootLink (flag_domain fl))) (flag_domain fl)
               = Failed err.
Proof.
  unfold main. cbn [findAll findAll_range].
  change (mLinks globals0 !! Href (rootLink (flag_domain fl))) with
    ((∅ : gmap string Link) !! Href (rootLink (flag_domain fl))).
  rewrite lookup_empty.
  destruct (follow (flag_depth fl) 0).
  - pose proof (parsePage_never_panics w
                  (Href (rootLink (flag_domain fl))) (flag_domain fl)) as Hnp.
    destruct (parsePage w _ _) as [newLinks|err|]; [| |done].
    + destruct (findAll n w (flag_depth fl) newLinks _ _ _)
        as [[g3 r3]|] eqn:Hcall.
      * apply findAll_never_panics in Hcall.
        destruct r3; [| |done];
          (split; [by destruct (String.eqb _ _)|]);
          by intros (_ & err & _ & ?).
      * split; [done|]. by intros (_ & err & _ & ?).
    + split.
      * intros [= <-]. split; [done|]. by exists err.
      * intros (_ & err' & -> & [= ->]). done.
  - split; [by destruct (String.eqb _ _)|]. by intros [? _].
Qed.

(** X12: whenever main returns, the registry holds the root link, with its
    text "Root link", under the root URL. *)
Theorem main_registers_root (n : nat) (w : World) (o : Output)
    (range : range_order) (fl : Flags) g out file :
  main n w o range fl = Some (Returns g out file) →
  mLinks g !! Href (rootLink (flag_domain fl))
  = Some (rootLink (flag_domain fl))
  ∧ Text (rootLink (flag_domain fl)) = "Root link".
Proof.
  intros Hmain. split; [|done]. revert Hmain.
  destruct n as [|n]; [done|].
  unfold main. cbn [findAll findAll_range].
  change (mLinks globals0 !! Href (rootLink (flag_domain fl))) with
    ((∅ : gmap string Link) !! Href (rootLink (flag_domain fl))).
  rewrite lookup_empty.
  assert (mLinks (record_insert (rootLink (flag_domain fl)) globals0)
          !! Href (rootLink (flag_domain fl))
          = Some (rootLink (flag_domain fl))) as Hroot.
  { simpl. apply lookup_insert_eq. }
  destruct (follow (flag_depth fl) 0).
  - destruct (parsePage w _ _) as [newLinks|err|]; [|done|done].
    destruct (findAll n w (flag_depth fl) newLinks _ _ _)
      as [[g3 r3]|] eqn:Hcall; [|done].
    eapply findAll_lookup_preserved in Hcall; [|exact Hroot].
    destruct r3; [| |done]; destruct (String.eqb _ _); by intros [= <- _ _].
  - destruct (String.eqb _ _); by intros [= <- _ _].
Qed.

End program_end.

Lemma main_panics_iff_root_fails_witness :
  main (sorter:=insertion_sorter) 1 (mock_world []) fs_ok range_fwd
    (flags "e.com" "" (-1))
  = Some (Panics (Some "no such host")).
Proof.
  apply (main_panics_iff_root_fails (sorter:=insertion_sorter) 0).
  split; [reflexivity|]. exists "no such host". split; reflexivity.
Defined.

Lemma main_registers_root_witness :
  ∃ g,
    main (sorter:=insertion_sorter) 2 (mock_world site_single) fs_ok
      range_fwd (flags "e.com" "" (-1))
    = Some (Returns g
              ("Number of links : 1" +:+ newline +:+ "[https://e.com]") None)
    ∧ mLinks g !! "https://e.com"
      = Some {| Href := "https://e.com"; Text := "Root link" |}.
Proof.
  eexists. split; [vm_compute; reflexivity|].
  eapply (main_registers_root (sorter:=insertion_sorter) 2
            (mock_world site_single) fs_ok range_fwd
            (flags "e.com" "" (-1))).
  vm_compute. reflexivity.
Defined.

(** ** The traversal: staying on the domain *)

Lemma filterLinks_elem (links : list Link) (f : Link → bool) (l : Link) :
  l ∈ filterLinks links f → l ∈ links ∧ f l = true.
Proof.
  induction links as [|l0 links IH]; simpl; [by intros ?%elem_of_nil|].
  destruct (f l0) eqn:Hf.
  - intros [->|Hin]%elem_of_cons; [by split; [left|]|].
    destruct (IH Hin). by split; [right|].
  - intros Hin. destruct (IH Hin). by split; [right|].
Qed.

Lemma mapLinks_elem (links out : list Link) (f : Link → option Link)
    (l' : Link) :
  mapLinks links f = Some out → l' ∈ out → ∃ l, l ∈ links ∧ f l = Some l'.
Proof.
  revert out. induction links as [|l0 links IH]; intros out; simpl.
  { intros [= <-] Hin. by apply elem_of_nil in Hin. }
  destruct (f l0) as [l0'|] eqn:Hf; [|done].
  destruct (mapLinks links f) as [ls|]; [|done].
  intros [= <-] [->|Hin]%elem_of_cons.
  - exists l0. by split; [left|].
  - destruct (IH ls eq_refl Hin) as (l & Hl & Hfl). exists l. by split; [right|].
Qed.

Lemma purgeTwins_elem {sorter : SliceSorter} (links : list Link) (l : Link) :
  l ∈ purgeTwins links → l ∈ links.
Proof.
  unfold purgeTwins. intros Hin.
  destruct (purgeTwins_scan_spec (sortSlice Href links) []) as (_ & _ & Hsub).
  { constructor. }
  { apply sortSlice_strongly_sorted. }
  { intros u l0 Hu. by apply elem_of_nil in Hu. }
  destruct (Hsub l Hin) as [Hnil|Hl]; [by apply elem_of_nil in Hnil|].
  by rewrite sortSlice_perm in Hl.
Qed.

Lemma normalizeLink_slash (domain : string) (a : Link) (r : string) :
  Href a = String "/" r →
  normalizeLink domain a
  = Some {| Href := scheme0 +:+ domain +:+ Href a; Text := Text a |}.
Proof. intros Hhref. unfold normalizeLink, index. by rewrite Hhref. Qed.

Lemma normalizeLink_h (domain : string) (a : Link) (r : string) :
  Href a = String "h" r → normalizeLink domain a = Some a.
Proof. intros Hhref. unfold normalizeLink, index. by rewrite Hhref. Qed.

(** A kept anchor without white space in front of its href is normalized to
    a link on the domain. *)
Lemma kept_link_same_domain (domain : string) (a l : Link) :
  trimLeft (Href a) = Href a →
  keepLink domain a = true →
  normalizeLink domain a = Some l →
  hasScheme (Href l) (domain +:+ "/") = true.
Proof.
  intros Hleft Hkeep.
  apply keepLink_spec in Hkeep as (_ & Hor).
  unfold TrimSpace in Hor. rewrite Hleft in Hor.
  destruct (trimRight_prefix (Href a)) as [t Ht].
  rewrite hasScheme_prefixes.
  destruct Hor as [Hslash|[Hsc|Hsc]].
  - apply HasPrefix_true_iff in Hslash as [t' Ht']. rewrite Ht' in Ht.
    rewrite append_cons, append_nil in Ht.
    rewrite (normalizeLink_slash domain a _ Ht). intros [= <-].
    apply orb_true_iff. left. apply HasPrefix_true_iff.
    exists (t' +:+ t). cbn [Href]. rewrite Ht. unfold scheme0.
    by rewrite !append_assoc, !append_cons, append_nil.
  - apply HasPrefix_true_iff in Hsc as [t' Ht']. rewrite Ht' in Ht.
    rewrite !append_assoc in Ht.
    rewrite (normalizeLink_h domain a _ Ht). intros [= <-].
    apply orb_true_iff. right. apply HasPrefix_true_iff.
    exists (t' +:+ t). by rewrite Ht, !append_assoc.
  - apply HasPrefix_true_iff in Hsc as [t' Ht']. rewrite Ht' in Ht.
    rewrite !append_assoc in Ht.
    rewrite (normalizeLink_h domain a _ Ht). intros [= <-].
    apply orb_true_iff. left. apply HasPrefix_true_iff.
    exists (t' +:+ t). by rewrite Ht, !append_assoc.
Qed.

Section same_domain.
Context {sorter : SliceSorter} (w : World) (maxDepth : Z) (domain : string).
Context (Hunpadded : hrefs_unpadded w).

Lemma parsePage_links_same_domain (url : string) (links : list Link)
    (l : Link) :
  parsePage w url domain = Done links → l ∈ links →
  hasScheme (Href l) (domain +:+ "/") = true.
Proof.
  unfold parsePage.
  destruct (loadPage w url) as [body|err] eqn:Hload; [|done].
  destruct (html_Parse w body) as [doc|err] eqn:Hparse; [|done].
  destruct (mapLinks _ _) as [ls|] eqn:Hmap; [|done].
  intros [= <-] Hin%purgeTwins_elem.
  destruct (mapLinks_elem _ _ _ _ Hmap Hin) as (a & Ha & Hnorm).
  apply filterLinks_elem in Ha as [Ha Hkeep].
  eapply kept_link_same_domain; [|exact Hkeep|exact Hnorm].
  by eapply Hunpadded.
Qed.

(** X13: when no page carries an href with white space in front, the crawl
    stays on the domain: every href a traversal adds to the registry is the
    href of one of the links it was started with, or begins with
    "http://domain/" or "https://domain/". *)
Theorem crawl_stays_on_domain nesting links depth g g' r :
  findAll nesting w maxDepth links domain depth g = Some (g', r) →
  ∀ k, k ∈ dom (mLinks g') →
       k ∈ dom (mLinks g) ∨ k ∈ Href <$> links
       ∨ hasScheme k (domain +:+ "/") = true.
Proof.
  revert links depth g g' r.
  induction nesting as [|nesting IH]; intros links depth; [done|].
  cbn [findAll].
  induction links as [|link rest IHl]; intros g g' r Hrun k Hk;
    simpl in Hrun.
  { simplify_eq. by left. }
  assert (∀ g1,
            findAll_range w maxDepth
              (λ newLinks depth' g',
                 findAll nesting w maxDepth newLinks domain depth' g')
              rest domain depth g1 = Some (g', r) →
            (∀ k, k ∈ dom (mLinks g1) →
                  k ∈ dom (mLinks g) ∨ k = Href link
                  ∨ hasScheme k (domain +:+ "/") = true) →
            k ∈ dom (mLinks g) ∨ k ∈ Href <$> link :: rest
            ∨ hasScheme k (domain +:+ "/") = true) as Hrest.
  { intros g1 Hrun1 Hg1.
    destruct (IHl g1 g' r Hrun1 k Hk) as [Hin|[Hin|?]]; [|set_solver|tauto].
    destruct (Hg1 k Hin) as [?|[->|?]]; [tauto|set_solver|tauto]. }
  destruct (mLinks g !! Href link); [apply (Hrest g); [done|tauto]|].
  assert (∀ k, k ∈ dom (mLinks (record_insert link g)) →
               k ∈ dom (mLinks g) ∨ k = Href link
               ∨ hasScheme k (domain +:+ "/") = true) as Hg1.
  { intros k'. simpl. rewrite dom_insert_L. set_solver. }
  destruct (follow maxDepth depth); [|by apply (Hrest _ Hrun)].
  destruct (parsePage w (Href link) domain) as [newLinks|err|] eqn:Hpage.
  - destruct (findAll nesting w maxDepth newLinks domain _ _)
      as [[g3 r3]|] eqn:Hcall; [|done].
    assert (∀ k, k ∈ dom (mLinks g3) →
                 k ∈ dom (mLinks g) ∨ k = Href link
                 ∨ hasScheme k (domain +:+ "/") = true) as Hg3.
    { intros k' Hk'.
      destruct (IH _ _ _ _ _ Hcall k' Hk') as [Hin|[Hin|?]]; [|right; right|tauto].
      - by apply Hg1.
      - apply list_elem_of_fmap in Hin as (l & -> & Hl).
        by eapply parsePage_links_same_domain. }
    destruct r3; [by apply (Hrest g3)|by apply (Hrest g3)|].
    simplify_eq. destruct (Hg3 k Hk) as [?|[->|?]]; [tauto|set_solver|tauto].
  - simplify_eq. destruct (Hg1 k Hk) as [?|[->|?]]; [tauto|set_solver|tauto].
  - simplify_eq. destruct (Hg1 k Hk) as [?|[->|?]]; [tauto|set_solver|tauto].
Qed.

End same_domain.

Lemma site_two_levels_unpadded : hrefs_unpadded (mock_world site_two_levels).
Proof.
  intros url body doc a _. unfold mock_world, site_two_levels, page_of.
  cbn [html_Parse links_Parse].
  repeat (destruct (String.eqb body _);
          [intros [= <-] Ha;
           repeat (apply elem_of_cons in Ha as [->|Ha]; [reflexivity|]);
           by apply elem_of_nil in Ha|]).
  done.
Defined.

Lemma crawl_stays_on_domain_witness :
  ∃ g r,
    findAll (sorter:=insertion_sorter) 5 (mock_world site_two_levels) (-1)
      [rootLink "e.com"] "e.com" 0 globals0 = Some (g, r)
    ∧ ∀ k, k ∈ dom (mLinks g) →
           k ∈ dom (mLinks globals0) ∨ k ∈ Href <$> [rootLink "e.com"]
           ∨ hasScheme k ("e.com" +:+ "/") = true.
Proof.
  eexists _, _. split; [vm_compute; reflexivity|].
  eapply (crawl_stays_on_domain (sorter:=insertion_sorter)
            (mock_world site_two_levels) (-1) "e.com"
            site_two_levels_unpadded 5 [rootLink "e.com"] 0 globals0).
  vm_compute. reflexivity.
Defined.

(** ** The traversal: a depth bound makes it end *)

Lemma int_wrap_small (z : Z) : - 2 ^ 63 ≤ z < 2 ^ 63 → int_wrap z = z.
Proof.
  intros Hz. unfold int_wrap.
  rewrite Z.mod_small; [lia|].
  change (2 ^ 64) with (2 * 2 ^ 63). lia.
Qed.

Section bounded_depth.
Context {sorter : SliceSorter} (w : World) (maxDepth : Z) (domain : string).

(** When the recursive call always returns, so does the loop. *)
Lemma findAll_range_returns
    (recur : list Link → Z → globals → option (globals * outcome unit))
    (depth : Z) :
  (follow maxDepth depth = true →
   ∀ links g, ∃ g' r, recur links (int_wrap (depth + 1)) g = Some (g', r)) →
  ∀ links g,
    ∃ g' r, findAll_range w maxDepth recur links domain depth g
            = Some (g', r).
Proof.
  intros Hrec.
  induction links as [|link rest IH]; intros g; simpl; [by eexists _, _|].
  destruct (mLinks g !! Href link); [apply IH|].
  destruct (follow maxDepth depth); [|apply IH].
  destruct (parsePage w (Href link) domain) as [newLinks|err|];
    [|by eexists _, _..].
  destruct (Hrec eq_refl newLinks
              (record_fetch (Href link) depth (record_insert link g)))
    as (g3 & r3 & ->).
  destruct r3; [apply IH|apply IH|by eexists _, _].
Qed.

Lemma findAll_bounded_returns (n : nat) :
  maxDepth ≠ -1 → maxDepth < 2 ^ 63 →
  ∀ depth links g,
    - 2 ^ 63 ≤ depth → (Z.to_nat (maxDepth - depth) ≤ n)%nat →
    ∃ g' r, findAll (S n) w maxDepth links domain depth g = Some (g', r).
Proof.
  intros Hlimited Hint.
  induction n as [|n IH]; intros depth links g Hdepth Hn; cbn [findAll];
    apply findAll_range_returns; intros Hfollow links' g1;
    unfold follow in Hfollow;
    apply orb_true_iff in Hfollow as [?%Z.eqb_eq|Hlt%Z.ltb_lt]; try done.
  - lia.
  - rewrite int_wrap_small by lia. apply IH; lia.
Qed.

(** X14: with a depth bound (any maxDepth other than -1) a traversal
    returns on every web, finite or not, cyclic or not: from depth d it
    nests at most maxDepth - d + 1 calls. *)
Theorem findAll_bounded_depth_terminates (depth : Z) (links : list Link)
    (g : globals) :
  maxDepth ≠ -1 → maxDepth < 2 ^ 63 → - 2 ^ 63 ≤ depth →
  ∃ g' r,
    findAll (S (Z.to_nat (maxDepth - depth))) w maxDepth links domain depth g
    = Some (g', r).
Proof.
  intros Hlimited Hint Hdepth. by apply findAll_bounded_returns.
Qed.

(** X15: a depth bound of 0 or any negative bound other than -1 switches
    following off: the traversal inserts the links it is given and fetches
    nothing, so main ends with the root link alone in the registry. *)
Theorem main_nonpositive_depth (n : nat) (o : Output) (range : range_order)
    (outfile : string) :
  maxDepth ≤ 0 → maxDepth ≠ -1 →
  ∃ out file,
    main (S n) w o range (flags domain outfile maxDepth)
    = Some (Returns (record_insert (rootLink domain) globals0) out file).
Proof.
  intros Hle Hne. unfold main.
  cbn [flag_depth flag_domain flag_outfile flags].
  cbn [findAll findAll_range].
  change (mLinks globals0 !! Href (rootLink domain)) with
    ((∅ : gmap string Link) !! Href (rootLink domain)).
  rewrite lookup_empty.
  assert (follow maxDepth 0 = false) as ->.
  { unfold follow. apply orb_false_iff.
    split; [by apply Z.eqb_neq|apply Z.ltb_ge; lia]. }
  destruct (String.eqb _ _); by eexists _, _.
Qed.

End bounded_depth.

Lemma findAll_bounded_depth_terminates_witness :
  ∃ g' r,
    findAll (sorter:=insertion_sorter) 3 (mock_world site_cycle) 2
      [bare url_A] "e.com" 0 globals0 = Some (g', r).
Proof.
  apply (findAll_bounded_depth_terminates (sorter:=insertion_sorter)
           (mock_world site_cycle) 2 "e.com" 0 [bare url_A] globals0).
  - lia.
  - reflexivity.
  - discriminate.
Defined.

Lemma main_nonpositive_depth_witness :
  ∃ out file,
    main (sorter:=insertion_sorter) 1 (mock_world site_two_levels) fs_ok
      range_fwd (flags "e.com" "" (-2))
    = Some (Returns (record_insert (rootLink "e.com") globals0) out file).
Proof.
  apply (main_nonpositive_depth (sorter:=insertion_sorter)
           (mock_world site_two_levels) (-2) "e.com" 0 fs_ok range_fwd "").
  - lia.
  - lia.
Defined.

(** ** The traversal: no depth bound *)

(** X16: without a depth bound (maxDepth = -1) the page of every href that
    enters the registry is fetched, in the order of insertion: the URLs
    fetched are the hrefs inserted. *)
Theorem unlimited_fetches_every_link {sorter : SliceSorter} (w : World)
    (domain : string) nesting links depth g g' r :
  findAll nesting w (-1) links domain depth g = Some (g', r) →
  (fetched (events g)).*1 = inserted (events g) →
  (fetched (events g')).*1 = inserted (events g').
Proof.
  apply (findAll_invariant w (-1) domain
           (λ g, (fetched (events g)).*1 = inserted (events g))).
  - intros link d g1 _ _ Hfollow. done.
  - intros link d g1 Heq _ _. csimpl. by rewrite Heq.
Qed.

Lemma unlimited_fetches_every_link_witness :
  ∃ g r,
    findAll (sorter:=insertion_sorter) 5 (mock_world site_two_levels) (-1)
      [rootLink "e.com"] "e.com" 0 globals0 = Some (g, r)
    ∧ (fetched (events g)).*1 = inserted (events g).
Proof.
  eexists _, _. split; [vm_compute; reflexivity|].
  eapply (unlimited_fetches_every_link (sorter:=insertion_sorter)
            (mock_world site_two_levels) "e.com" 5 [rootLink "e.com"] 0
            globals0).
  - vm_compute. reflexivity.
  - reflexivity.
Defined.

(** ** The listing *)

Section listing.
Context {sorter : SliceSorter}.

Lemma keyed_values_hrefs (m : gmap string Link) :
  (∀ k v, m !! k = Some v → Href v = k) →
  Href <$> (map_to_list m).*2 = (map_to_list m).*1.
Proof.
  intros Hkeyed. rewrite <-list_fmap_compose.
  apply list_fmap_ext. intros i [k v] Hi. simpl.
  apply Hkeyed. apply elem_of_map_to_list.
  by eapply list_elem_of_lookup_2.
Qed.

(** X17: when every entry of the registry is stored under the href of its
    link (as the traversal leaves it), writeBuf prints the number of entries
    and then, between brackets and separated by spaces, the keys of the
    registry, each once, in strictly increasing order, whatever the order in
    which the map is iterated. *)
Theorem writeBuf_lists_registry (range : range_order) (g : globals) :
  range_ok range →
  (∀ k v, mLinks g !! k = Some v → Href v = k) →
  ∃ urls,
    writeBuf range g
    = "Number of links : " +:+ pretty (length urls) +:+ newline
      +:+ "[" +:+ String.concat " " urls +:+ "]"
    ∧ StronglySorted (key_lt id) urls
    ∧ (∀ h, h ∈ urls ↔ h ∈ dom (mLinks g)).
Proof.
  intros Hrange Hkeyed.
  assert (Href <$> range (mLinks g) ≡ₚ (map_to_list (mLinks g)).*1) as Hperm.
  { by rewrite (Hrange (mLinks g)), keyed_values_hrefs. }
  exists (sortSlice id (Href <$> range (mLinks g))).
  split; [|split].
  - assert (length (sortSlice id (Href <$> range (mLinks g)))
            = size (mLinks g)) as Hlen.
    { rewrite sortSlice_perm, Hperm, length_fmap.
      by rewrite length_map_to_list. }
    unfold writeBuf. by rewrite Hlen, !append_assoc.
  - apply sorted_NoDup_strict; [apply sortSlice_strongly_sorted|].
    rewrite list_fmap_id, sortSlice_perm, Hperm.
    apply NoDup_fst_map_to_list.
  - intros h. rewrite sortSlice_perm, Hperm, elem_of_dom.
    rewrite list_elem_of_fmap. split.
    + intros ([k v] & -> & Hin). apply elem_of_map_to_list in Hin. by exists v.
    + intros [v Hv]. exists (h, v). split; [done|].
      by apply elem_of_map_to_list.
Qed.

End listing.

Lemma writeBuf_lists_registry_witness :
  ∃ urls,
    writeBuf (sorter:=insertion_sorter) range_bwd
      (record_insert (bare "b") (record_insert (bare "a") globals0))
    = "Number of links : " +:+ pretty (length urls) +:+ newline
      +:+ "[" +:+ String.concat " " urls +:+ "]"
    ∧ StronglySorted (key_lt id) urls
    ∧ (∀ h, h ∈ urls
            ↔ h ∈ dom (mLinks (record_insert (bare "b")
                                 (record_insert (bare "a") globals0)))).
Proof.
  apply (writeBuf_lists_registry (sorter:=insertion_sorter)).
  - exact range_bwd_ok.
  - intros k v. simpl. rewrite !lookup_insert.
    repeat case_decide; by intros [= <-].
Defined.

(** ** The output and the anchor texts *)

Section output_keys.
Context {sorter : SliceSorter}.

Lemma keyed_hrefs_perm (range1 range2 : range_order)
    (m1 m2 : gmap string Link) :
  range_ok range1 → range_ok range2 →
  (∀ k v, m1 !! k = Some v → Href v = k) →
  (∀ k v, m2 !! k = Some v → Href v = k) →
  dom m1 = dom m2 →
  Href <$> range1 m1 ≡ₚ Href <$> range2 m2.
Proof.
  intros Hr1 Hr2 Hk1 Hk2 Hdom.
  rewrite (Hr1 m1), (Hr2 m2), !keyed_values_hrefs by done.
  apply NoDup_Permutation; [apply NoDup_fst_map_to_list..|].
  intros k. rewrite !list_elem_of_fmap.
  assert (∀ m : gmap string Link,
            (∃ kv, k = kv.1 ∧ kv ∈ map_to_list m) ↔ k ∈ dom m) as Hin.
  { intros m. rewrite elem_of_dom. split.
    - intros ([k' v] & -> & Hkv). apply elem_of_map_to_list in Hkv.
      by exists v.
    - intros [v Hv]. exists (k, v). split; [done|].
      by apply elem_of_map_to_list. }
  by rewrite !Hin, Hdom.
Qed.

(** X18: the output depends on the registry through its set of URLs only:
    two registries with the same keys (each entry stored under the href of
    its link) give the same listing and the same file, whatever the anchor
    texts and the iteration orders. *)
Theorem output_ignores_texts (o : Output) (range1 range2 : range_order)
    (g1 g2 : globals) (filename : string) :
  range_ok range1 → range_ok range2 →
  (∀ k v, mLinks g1 !! k = Some v → Href v = k) →
  (∀ k v, mLinks g2 !! k = Some v → Href v = k) →
  dom (mLinks g1) = dom (mLinks g2) →
  writeBuf range1 g1 = writeBuf range2 g2
  ∧ writeXml o range1 g1 filename = writeXml o range2 g2 filename.
Proof.
  intros Hr1 Hr2 Hk1 Hk2 Hdom.
  pose proof (keyed_hrefs_perm range1 range2 _ _ Hr1 Hr2 Hk1 Hk2 Hdom)
    as Hperm.
  split.
  - unfold writeBuf.
    rewrite (sortSlice_perm_inj id (Href <$> range1 (mLinks g1))
               (Href <$> range2 (mLinks g2))); [|done|done].
    by rewrite <-!size_dom, Hdom.
  - unfold writeXml.
    rewrite (sortSlice_perm_inj Loc
               ((λ l, {| Loc := Href l |}) <$> range1 (mLinks g1))
               ((λ l, {| Loc := Href l |}) <$> range2 (mLinks g2)));
      [done| |].
    + intros [a] [b]. simpl. by intros ->.
    + rewrite !(list_fmap_compose Href mkUrl). by rewrite Hperm.
Qed.

End output_keys.

Lemma output_ignores_texts_witness :
  writeBuf (sorter:=insertion_sorter) range_fwd
    (record_insert {| Href := "a"; Text := "one" |} globals0)
  = writeBuf (sorter:=insertion_sorter) range_bwd
      (record_insert {| Href := "a"; Text := "two" |} globals0)
  ∧ writeXml (sorter:=insertion_sorter) fs_ok range_fwd
      (record_insert {| Href := "a"; Text := "one" |} globals0) "s.xml"
    = writeXml (sorter:=insertion_sorter) fs_ok range_bwd
        (record_insert {| Href := "a"; Text := "two" |} globals0) "s.xml".
Proof.
  apply (output_ignores_texts (sorter:=insertion_sorter)).
  - exact range_fwd_ok.
  - exact range_bwd_ok.
  - intros k v. simpl. rewrite lookup_insert.
    case_decide; by intros [= <-].
  - intros k v. simpl. rewrite lookup_insert.
    case_decide; by intros [= <-].
  - reflexivity.
Defined.
